(** * kallm: the in-memory semantic cache

    A shallow embedding of package [cache] (similarity math and
    [MemoryCache]) and of [api.CacheEntry], with the properties of the
    cache engine proved over it.

    - [float64] is Rocq's primitive binary64 [float]; its operations are
      related to the IEEE 754 specification [spec_float] by the
      standard library's [FloatAxioms].  Every operation rounds on its
      own, as the amd64 compiler has it (no fused multiply-add).
    - [time.Time] is an instant on the integer line, the zero [Time]
      being instant [0]; [time.Now()] is an argument of every operation
      that reads the clock.
    - [*api.CacheEntry] is a location of a heap of entries; reading
      through a location that holds no entry is Go's nil dereference and
      makes the operation return [None]. *)

From Stdlib Require Import ZArith Floats Bool Lia.
From stdpp Require Import base option list gmap strings.

Set Warnings "-inexact-float".
Local Open Scope float_scope.

(** ** Vector math (similarity.go) *)

Module Similarity.

(** The accumulators [dotProduct, normA, normB] of the loop. *)
Definition acc : Type := (float * float * float)%type.

(** One iteration of [for i := range a], at the pair [(a[i], b[i])]. *)
Definition cos_step (s : acc) (xy : float * float) : acc :=
  let '(dotProduct, normA, normB) := s in
  let '(x, y) := xy in
  (dotProduct + x * y, normA + x * x, normB + y * y).

(** The whole loop. It runs only when [len(a) = len(b)], so that
    [zip a b] visits exactly the indices of [a]. *)
Definition cos_loop (a b : list float) : acc :=
  foldl cos_step (0, 0, 0) (zip a b).

Definition CosineSimilarity (a b : list float) : float :=
  if negb (length a =? length b)%nat || (length a =? 0)%nat then 0
  else
    let '(dotProduct, normA, normB) := cos_loop a b in
    if (normA =? 0) || (normB =? 0) then 0
    else dotProduct / (sqrt normA * sqrt normB).

(** A vector of zero magnitude: every component is a zero ([+0] or
    [-0], which [==] does not tell apart). *)
Definition zero_vector (v : list float) : Prop :=
  Forall (fun x => (x =? 0) = true) v.

(** One iteration of the loop of [EuclideanDistance]. *)
Definition euclid_step (sum : float) (xy : float * float) : float :=
  let '(x, y) := xy in
  let diff := x - y in
  sum + diff * diff.

Definition EuclideanDistance (a b : list float) : float :=
  if negb (length a =? length b)%nat || (length a =? 0)%nat then infinity
  else sqrt (foldl euclid_step 0 (zip a b)).

(** The sum of squares that [NormalizeVector] takes the root of. *)
Definition sum_squares (v : list float) : float :=
  foldl (fun norm val => norm + val * val) 0 v.

Definition NormalizeVector (v : list float) : list float :=
  let norm := sqrt (sum_squares v) in
  if norm =? 0 then v
  else (fun val => val / norm) <$> v.

(** No component is NaN or an infinity. *)
Definition finite_vector (v : list float) : Prop :=
  Forall (fun x => is_finite x = true) v.

(** The accumulators of the call with the arguments exchanged. *)
Definition swap_acc (s : acc) : acc :=
  let '(dotProduct, normA, normB) := s in (dotProduct, normB, normA).

End Similarity.

Import Similarity.

(** ** Entries, time and the heap (pkg/api/types.go) *)

(** [time.Time]: an instant; [time.Time{}] is the instant [0]. *)
Definition Time : Type := Z.
Bind Scope Z_scope with Time.
Definition zeroTime : Time := 0%Z.

(** [t.Before(u)] and [t.After(u)]. *)
Definition Before (t u : Time) : bool := (t <? u)%Z.
Definition After (t u : Time) : bool := (u <? t)%Z.

(** [int64] arithmetic wraps around. *)
Definition int64 (z : Z) : Z := ((z + 2 ^ 63) mod 2 ^ 64 - 2 ^ 63)%Z.

(** The conversion [float64(n)] of an integer: the nearest binary64. *)
Definition float64_of_int (n : Z) : float :=
  SF2Prim (binary_normalize prec emax n 0 false).

(** [api.CacheStats]. *)
Record CacheStats : Type := mkCacheStats {
  TotalEntries : Z;
  TotalHits : Z;
  TotalMisses : Z;
  HitRate : float;
  AvgSimilarity : float;
  EstimatedSaved : float
}.

(** A [*api.CacheEntry]. *)
Definition ptr : Type := positive.

(** [cache.Options]; durations are counted in nanoseconds. *)
Record Options : Type := mkOptions {
  MaxSize : Z;
  DefaultTTL : Z;
  CleanupInterval : Z;
  SimilarityThreshold : float
}.

Definition DefaultOptions : Options :=
  {| MaxSize := 10000;
     DefaultTTL := 24 * 3600 * 10 ^ 9;
     CleanupInterval := 5 * 60 * 10 ^ 9;
     SimilarityThreshold := 0.95 |}.

Section Cache.

(** The request and the response are payloads the cache never reads. *)
Context {ChatCompletionRequest ChatCompletionResponse : Type}.

Record CacheEntry : Type := mkCacheEntry {
  Request : ChatCompletionRequest;
  Response : ChatCompletionResponse;
  Embedding : list float;
  CreatedAt : Time;
  ExpiresAt : Time;
  HitCount : Z;
  LastHitAt : Time
}.

(** [MemoryCache] without its lock: every method body below runs with
    the lock held and is one atomic step. *)
Record MemoryCache : Type := mkMemoryCache {
  entries : list ptr;
  opts : Options;
  hits : Z;
  misses : Z
}.

(** The program state the cache lives in: the entries allocated so far,
    the cache, and the goroutines [go m.updateHitStats(p)] that were
    started and have not run yet, each with the pointer it captured. *)
Record World : Type := mkWorld {
  heap : gmap ptr CacheEntry;
  mc : MemoryCache;
  pending : list ptr
}.

Definition with_entries (es : list ptr) (w : World) : World :=
  {| heap := heap w;
     mc := {| entries := es; opts := opts (mc w);
              hits := hits (mc w); misses := misses (mc w) |};
     pending := pending w |}.

(** ** The cache engine (memory.go) *)

Definition NewMemoryCache (o : option Options) : MemoryCache :=
  {| entries := []; opts := default DefaultOptions o; hits := 0; misses := 0 |}.

(** The scan of [Get], from the running [bestMatch] (nil is [None]) and
    [bestSimilarity]. *)
Fixpoint get_scan (h : gmap ptr CacheEntry) (now : Time)
    (embedding : list float) (threshold : float) (es : list ptr)
    (bestMatch : option ptr) (bestSimilarity : float)
    : option (option ptr * float) :=
  match es with
  | [] => Some (bestMatch, bestSimilarity)
  | p :: es' =>
      entry ← h !! p;
      if After now (ExpiresAt entry)
      then get_scan h now embedding threshold es' bestMatch bestSimilarity
      else
        let similarity := CosineSimilarity embedding (Embedding entry) in
        if (threshold <=? similarity) && (bestSimilarity <? similarity)
        then get_scan h now embedding threshold es' (Some p) similarity
        else get_scan h now embedding threshold es' bestMatch bestSimilarity
  end.

Definition Get (now : Time) (embedding : list float) (threshold : float)
    (w : World) : option (World * (option ptr * float * bool)) :=
  '(bestMatch, bestSimilarity) ←
    get_scan (heap w) now embedding threshold (entries (mc w)) None 0;
  match bestMatch with
  | Some p =>
      Some ({| heap := heap w;
               mc := {| entries := entries (mc w); opts := opts (mc w);
                        hits := int64 (hits (mc w) + 1);
                        misses := misses (mc w) |};
               pending := pending w ++ [p] |},
            (Some p, bestSimilarity, true))
  | None =>
      Some ({| heap := heap w;
               mc := {| entries := entries (mc w); opts := opts (mc w);
                        hits := hits (mc w);
                        misses := int64 (misses (mc w) + 1) |};
               pending := pending w |},
            (None, 0, false))
  end.

(** The body of the goroutine, run at time [now]. *)
Definition updateHitStats (now : Time) (p : ptr) (w : World) : option World :=
  entry ← heap w !! p;
  Some {| heap := <[p := {| Request := Request entry;
                            Response := Response entry;
                            Embedding := Embedding entry;
                            CreatedAt := CreatedAt entry;
                            ExpiresAt := ExpiresAt entry;
                            HitCount := int64 (HitCount entry + 1);
                            LastHitAt := now |}]> (heap w);
          mc := mc w; pending := pending w |}.

(** The index of the first stored entry whose similarity to [embedding]
    is above 0.99, scanning from index [i]. *)
Fixpoint find_duplicate (h : gmap ptr CacheEntry) (embedding : list float)
    (es : list ptr) (i : nat) : option (option nat) :=
  match es with
  | [] => Some None
  | p :: es' =>
      e ← h !! p;
      if 0.99 <? CosineSimilarity embedding (Embedding e)
      then Some (Some i)
      else find_duplicate h embedding es' (S i)
  end.

(** [m.entries[i] = m.entries[len-1]; m.entries = m.entries[:len-1]];
    every caller has [i] in range. *)
Definition remove_swap (i : nat) (es : list ptr) : list ptr :=
  match last es with
  | Some l => take (length es - 1) (<[i := l]> es)
  | None => es
  end.

(** The scan of [evictOldest], at index [i]. *)
Fixpoint oldest_scan (h : gmap ptr CacheEntry) (es : list ptr) (i : nat)
    (oldestIdx : nat) (oldestTime : Time) : option (nat * Time) :=
  match es with
  | [] => Some (oldestIdx, oldestTime)
  | p :: es' =>
      e ← h !! p;
      if Before (LastHitAt e) oldestTime
      then oldest_scan h es' (S i) i (LastHitAt e)
      else oldest_scan h es' (S i) oldestIdx oldestTime
  end.

Definition evictOldest (h : gmap ptr CacheEntry) (es : list ptr)
    : option (list ptr) :=
  match es with
  | [] => Some []
  | p0 :: _ =>
      e0 ← h !! p0;
      '(oldestIdx, _) ← oldest_scan h es 0 0 (LastHitAt e0);
      Some (remove_swap oldestIdx es)
  end.

(** [Set]; the new entry is read only inside the loop over the stored
    entries. *)
Definition Set_ (entry : ptr) (w : World) : option World :=
  let es := entries (mc w) in
  dup ← match es with
        | [] => Some None
        | _ :: _ =>
            new ← heap w !! entry;
            find_duplicate (heap w) (Embedding new) es 0
        end;
  match dup with
  | Some i => Some (with_entries (<[i := entry]> es) w)
  | None =>
      es1 ← (if (MaxSize (opts (mc w)) <=? Z.of_nat (length es))%Z
             then evictOldest (heap w) es else Some es);
      Some (with_entries (es1 ++ [entry]) w)
  end.

Definition Delete (embedding : list float) (w : World) : option World :=
  let es := entries (mc w) in
  dup ← find_duplicate (heap w) embedding es 0;
  match dup with
  | Some i => Some (with_entries (remove_swap i es) w)
  | None => Some w
  end.

Definition Clear (w : World) : World :=
  {| heap := heap w;
     mc := {| entries := []; opts := opts (mc w); hits := 0; misses := 0 |};
     pending := pending w |}.

(** The loop of [Cleanup], from the entries kept and the count so far. *)
Fixpoint cleanup_scan (h : gmap ptr CacheEntry) (now : Time) (es : list ptr)
    (active : list ptr) (removed : Z) : option (list ptr * Z) :=
  match es with
  | [] => Some (active, removed)
  | p :: es' =>
      e ← h !! p;
      if Before now (ExpiresAt e)
      then cleanup_scan h now es' (active ++ [p]) removed
      else cleanup_scan h now es' active (removed + 1)
  end.

Definition Cleanup (now : Time) (w : World) : option (World * Z) :=
  '(active, removed) ← cleanup_scan (heap w) now (entries (mc w)) [] 0;
  Some (with_entries active w, removed).

Definition Size (w : World) : Z := Z.of_nat (length (entries (mc w))).

(** [Stats]; the field [AvgSimilarity] is left at its zero value. *)
Definition Stats (w : World) : CacheStats :=
  let hits := hits (mc w) in
  let misses := misses (mc w) in
  let total := int64 (hits + misses) in
  let hitRate :=
    if (0 <? total)%Z then float64_of_int hits / float64_of_int total else 0 in
  let estimatedSaved := float64_of_int hits * 0.001 in
  {| TotalEntries := Z.of_nat (length (entries (mc w)));
     TotalHits := hits;
     TotalMisses := misses;
     HitRate := hitRate;
     AvgSimilarity := 0;
     EstimatedSaved := estimatedSaved |}.

(** Every stored pointer points to an entry. *)
Definition wf (w : World) : Prop :=
  Forall (fun p => is_Some (heap w !! p)) (entries (mc w)).

(** The entry stored at index [i]. *)
Definition stored (w : World) (i : nat) : option CacheEntry :=
  p ← entries (mc w) !! i; heap w !! p.

(** ** Interleavings *)

(** What can happen next to a cache shared by several goroutines: a
    call of a method, whose body holds the lock from start to end (the
    ticker of [cleanupLoop] calls [Cleanup]), or a pending
    [updateHitStats] goroutine getting the write lock. *)
Inductive Event : Type :=
  | CallGet (now : Time) (embedding : list float) (threshold : float)
  | CallSet (entry : ptr)
  | CallDelete (embedding : list float)
  | CallClear
  | CallCleanup (now : Time)
  | RunUpdateHitStats (k : nat) (now : Time).

Definition exec (ev : Event) (w : World) : option World :=
  match ev with
  | CallGet now embedding threshold => fst <$> Get now embedding threshold w
  | CallSet entry => Set_ entry w
  | CallDelete embedding => Delete embedding w
  | CallClear => Some (Clear w)
  | CallCleanup now => fst <$> Cleanup now w
  | RunUpdateHitStats k now =>
      p ← pending w !! k;
      w' ← updateHitStats now p w;
      Some {| heap := heap w'; mc := mc w'; pending := delete k (pending w') |}
  end.

Fixpoint run (evs : list Event) (w : World) : option World :=
  match evs with
  | [] => Some w
  | ev :: evs' => w' ← exec ev w; run evs' w'
  end.

(** ** Vocabulary of the properties *)

(** [Get] skips an entry when [now.After(entry.ExpiresAt)]. *)
Definition live (now : Time) (e : CacheEntry) : Prop :=
  After now (ExpiresAt e) = false.

(** [Cleanup] drops the entry behind [p] unless [now.Before(e.ExpiresAt)]. *)
Definition expired (h : gmap ptr CacheEntry) (now : Time) (p : ptr) : bool :=
  match h !! p with
  | Some e => negb (Before now (ExpiresAt e))
  | None => false
  end.

(** What the scan of [Get] knows once the entries of [pre] are done:
    [bestSimilarity] is [0] or above and no live entry of [pre] that
    meets the threshold has a greater similarity; [bestMatch] is nil
    with [bestSimilarity] still [0], or it is the first entry of [pre]
    that is live, meets the threshold and has the positive similarity
    [bestSimilarity] (the entries before it being strictly less
    similar). *)
Definition get_inv (h : gmap ptr CacheEntry) (now : Time)
    (embedding : list float) (threshold : float) (pre : list ptr)
    (bestMatch : option ptr) (bestSimilarity : float) : Prop :=
  (0 <=? bestSimilarity) = true /\
  (forall (j : nat) q e, pre !! j = Some q -> h !! q = Some e -> live now e ->
     (threshold <=? CosineSimilarity embedding (Embedding e)) = true ->
     (CosineSimilarity embedding (Embedding e) <=? bestSimilarity) = true) /\
  match bestMatch with
  | None => bestSimilarity = 0
  | Some p =>
      exists (i : nat) e,
        pre !! i = Some p /\ h !! p = Some e /\ live now e /\
        bestSimilarity = CosineSimilarity embedding (Embedding e) /\
        (threshold <=? bestSimilarity) = true /\
        (0 <? bestSimilarity) = true /\
        forall (j : nat) q e', (j < i)%nat ->
          pre !! j = Some q -> h !! q = Some e' -> live now e' ->
          (threshold <=? CosineSimilarity embedding (Embedding e')) = true ->
          (CosineSimilarity embedding (Embedding e') <? bestSimilarity) = true
  end.

(** What the scan of [evictOldest] knows about the list [es] once the
    indices below [n] are done: [oldestTime] is the last-hit time of
    the entry at [oldestIdx], no scanned entry has an earlier one, and
    the entries before [oldestIdx] have a later one. *)
Definition oldest_inv (h : gmap ptr CacheEntry) (es : list ptr) (n : nat)
    (oldestIdx : nat) (oldestTime : Time) : Prop :=
  (exists p e, es !! oldestIdx = Some p /\ h !! p = Some e /\
     LastHitAt e = oldestTime) /\
  (forall (j : nat) q e, (j < n)%nat -> es !! j = Some q -> h !! q = Some e ->
     (oldestTime <= LastHitAt e)%Z) /\
  (forall (j : nat) q e, (j < oldestIdx)%nat -> es !! j = Some q ->
     h !! q = Some e -> (oldestTime < LastHitAt e)%Z).

(** [Set] and [Delete] take [e] for the entry of [embedding]. *)
Definition near_duplicate (embedding : list float) (e : CacheEntry) : bool :=
  0.99 <? CosineSimilarity embedding (Embedding e).

(** No dereference can fail: the stored pointers and the pointers held
    by the pending goroutines all point to entries. *)
Definition safe (w : World) : Prop :=
  wf w /\ Forall (fun p => is_Some (heap w !! p)) (pending w).

(** What an event needs from its caller: [Set] is given a pointer to an
    entry; only a goroutine that exists can be scheduled. *)
Definition admissible (ev : Event) (w : World) : Prop :=
  match ev with
  | CallSet entry => is_Some (heap w !! entry)
  | RunUpdateHitStats k _ => (k < length (pending w))%nat
  | _ => True
  end.

Definition is_get (ev : Event) : bool :=
  match ev with CallGet _ _ _ => true | _ => false end.

Definition is_clear (ev : Event) : bool :=
  match ev with CallClear => true | _ => false end.

End Cache.

(** ** The Ollama embedder (internal/embedding/ollama.go) *)

Module Ollama.

(** The errors of [Embed] and [EmbedBatch], one constructor for each
    [fmt.Errorf], with the wrapped error or the values formatted. *)
Inductive EmbedError : Type :=
  | MarshalFailed (cause : string)
  | CreateRequestFailed (cause : string)
  | RequestFailed (cause : string)
  | ReadFailed (cause : string)
  | BadStatus (status : Z) (body : string)
  | ParseFailed (cause : string)
  | EmptyEmbedding
  | TextFailed (i : nat) (cause : EmbedError).

Record OllamaEmbedder : Type := mkOllamaEmbedder {
  baseURL : string;
  model : string;
  dimensions : Z
}.

(** [http.StatusOK]. *)
Definition StatusOK : Z := 200.

Section Transport.

(** The state of the network and of the server, and the requests and
    responses of package [net/http]. *)
Context {Net Request Response : Type}.

(** The library calls of [Embed], each with its error: [json.Marshal]
    of the model and the prompt, [http.NewRequestWithContext] of a POST
    to a URL with a body, [client.Do], [io.ReadAll] of the response
    body, the [StatusCode] of a response, and [json.Unmarshal] into the
    [embedding] field. *)
Context (marshal : string -> string -> string + string).
Context (new_request : string -> string -> string + Request).
Context (client_do : Request -> Net -> Net * (string + Response)).
Context (read_all : Response -> Net -> Net * (string + string)).
Context (status_code : Response -> Z).
Context (unmarshal : string -> string + list float).

(** [defer resp.Body.Close()]: what closing the body does to the
    network, on every return once there is a response. *)
Context (body_close : Response -> Net -> Net).

Definition Embed (e : OllamaEmbedder) (text : string) (net : Net)
    : Net * (EmbedError + list float) :=
  match marshal (model e) text with
  | inl err => (net, inl (MarshalFailed err))
  | inr jsonBody =>
      match new_request (baseURL e +:+ "/api/embeddings") jsonBody with
      | inl err => (net, inl (CreateRequestFailed err))
      | inr req =>
          match client_do req net with
          | (net1, inl err) => (net1, inl (RequestFailed err))
          | (net1, inr resp) =>
              match read_all resp net1 with
              | (net2, inl err) => (body_close resp net2, inl (ReadFailed err))
              | (net2, inr body) =>
                  if negb (status_code resp =? StatusOK)%Z
                  then (body_close resp net2,
                        inl (BadStatus (status_code resp) body))
                  else
                    match unmarshal body with
                    | inl err => (body_close resp net2, inl (ParseFailed err))
                    | inr embedding =>
                        if (length embedding =? 0)%nat
                        then (body_close resp net2, inl EmptyEmbedding)
                        else (body_close resp net2, inr embedding)
                    end
              end
          end
      end
  end.

(** The loop of [EmbedBatch], at index [i], over the texts left. *)
Fixpoint embed_loop (e : OllamaEmbedder) (texts : list string) (i : nat)
    (results : list (list float)) (net : Net)
    : Net * (EmbedError + list (list float)) :=
  match texts with
  | [] => (net, inr results)
  | text :: texts' =>
      match Embed e text net with
      | (net1, inl err) => (net1, inl (TextFailed i err))
      | (net1, inr emb) =>
          embed_loop e texts' (S i) (<[i := emb]> results) net1
      end
  end.

Definition EmbedBatch (e : OllamaEmbedder) (texts : list string) (net : Net)
    : Net * (EmbedError + list (list float)) :=
  embed_loop e texts 0 (replicate (length texts) []) net.

End Transport.

End Ollama.

(** ** Worked scenario: dimensionality 3, capacity 2, TTL one hour *)

Module Scenario.

Definition hour : Z := 3600 * 10 ^ 9.

Definition fresh_entry (name : string) (embedding : list float)
    (created : Time) : @CacheEntry string string :=
  {| Request := name; Response := name; Embedding := embedding;
     CreatedAt := created; ExpiresAt := (created + hour)%Z;
     HitCount := 0; LastHitAt := zeroTime |}.

Definition pA : ptr := 1%positive.
Definition pB : ptr := 2%positive.
Definition pC : ptr := 3%positive.

Definition A := fresh_entry "A" [1; 0; 0] 1000.
Definition B := fresh_entry "B" [0; 1; 0] 2000.
Definition C := fresh_entry "C" [0; 0; 1] 5000.

Definition capacity2 : Options :=
  {| MaxSize := 2; DefaultTTL := hour;
     CleanupInterval := 5 * 60 * 10 ^ 9; SimilarityThreshold := 0.9 |}.

(** The three entries allocated, the cache just built. *)
Definition start : World :=
  {| heap := {[ pA := A; pB := B; pC := C ]};
     mc := NewMemoryCache (Some capacity2);
     pending := [] |}.

(** [A] then [B] stored; then a lookup that matches [B], and its
    goroutine run. *)
Definition hit_B : list Event :=
  [CallSet pA; CallSet pB; CallGet 3000 [0; 1; 0] 0.9;
   RunUpdateHitStats 0 3001].

(** The cache once [A] and [B] are stored. *)
Definition two_stored : World :=
  {| heap := heap start;
     mc := {| entries := [pA; pB]; opts := capacity2;
              hits := 0; misses := 0 |};
     pending := [] |}.

(** The same, once the lookup of [hit_B] has matched [B] and its
    goroutine has run at time 3001. *)
Definition B_hit : World :=
  {| heap := <[pB := {| Request := "B"; Response := "B";
                        Embedding := [0; 1; 0];
                        CreatedAt := 2000; ExpiresAt := (2000 + hour)%Z;
                        HitCount := 1; LastHitAt := 3001 |}]> (heap start);
     mc := {| entries := [pA; pB]; opts := capacity2;
              hits := 1; misses := 0 |};
     pending := [] |}.

(** A cache of capacity zero, just built. *)
Definition capacity0 : World :=
  {| heap := heap start;
     mc := NewMemoryCache
             (Some {| MaxSize := 0; DefaultTTL := hour;
                      CleanupInterval := 5 * 60 * 10 ^ 9;
                      SimilarityThreshold := 0.9 |});
     pending := [] |}.

(** A fourth entry, whose embedding is close to that of [B]. *)
Definition pD : ptr := 4%positive.
Definition D := fresh_entry "D" [0.01; 1; 0] 6000.

Definition with_D (w : World) : World :=
  {| heap := <[pD := D]> (heap w); mc := mc w; pending := pending w |}.

(** A server for the embedder: the network state is the list of the
    request bodies sent so far; the prompt is sent as the body; the
    server refuses the prompt ["down"], answers 500 to ["boom"], and
    answers 200 with a two-component embedding otherwise. *)
Definition fake_marshal (model prompt : string) : string + string :=
  inr prompt.
Definition fake_new_request (url body : string) : string + string :=
  inr body.
Definition fake_do (req : string) (net : list string)
    : list string * (string + (Z * string)) :=
  (net ++ [req],
   if String.eqb req "down" then inl "connection refused"
   else if String.eqb req "boom" then inr (500%Z, "internal error")
   else inr (200%Z, req)).
Definition fake_read_all (resp : Z * string) (net : list string)
    : list string * (string + string) :=
  (net, inr (snd resp)).
Definition fake_status (resp : Z * string) : Z := fst resp.
Definition fake_unmarshal (body : string) : string + list float :=
  inr [1; 0].
Definition fake_close (resp : Z * string) (net : list string) : list string :=
  net.

Definition nomic : Ollama.OllamaEmbedder :=
  {| Ollama.baseURL := "http://localhost:11434";
     Ollama.model := "nomic-embed-text";
     Ollama.dimensions := 768 |}.

Definition fake_Embed :=
  Ollama.Embed fake_marshal fake_new_request fake_do fake_read_all
               fake_status fake_unmarshal fake_close.

Definition fake_EmbedBatch :=
  Ollama.EmbedBatch fake_marshal fake_new_request fake_do fake_read_all
                    fake_status fake_unmarshal fake_close.

End Scenario.

(** ** Facts on binary64 *)

Section Binary64.

Lemma float_mul_comm (x y : float) : x * y = y * x.
Proof.
  apply Prim2SF_inj. rewrite !mul_spec.
  unfold SF64mul, SFmul.
  destruct (Prim2SF x) as [sx|sx| |sx mx ex], (Prim2SF y) as [sy|sy| |sy my ey];
    try reflexivity;
    try (rewrite (xorb_comm sx sy); reflexivity).
  rewrite (xorb_comm sx sy), (Pos.mul_comm mx my), (Z.add_comm ex ey).
  reflexivity.
Qed.

(** [x == 0] holds of the two zeros only. *)
Lemma float_eqb_zero (x : float) :
  (x =? 0) = true -> x = 0 \/ x = (-0).
Proof.
  rewrite FloatAxioms.eqb_spec. intros H.
  assert (Hz : exists s, Prim2SF x = S754_zero s).
  { change (Prim2SF 0) with (S754_zero false) in H.
    destruct (Prim2SF x) as [s|s| |s m e]; simpl in H;
      try discriminate; eauto; destruct s; discriminate. }
  destruct Hz as [s Hs].
  destruct s; [right | left]; apply Prim2SF_inj; rewrite Hs; reflexivity.
Qed.

Lemma float_sq_zero (x : float) : (x =? 0) = true -> x * x = 0.
Proof. intros H. destruct (float_eqb_zero x H) as [-> | ->]; reflexivity. Qed.

(** The comparisons [<] and [<=] order the floats that are not NaN:
    the specification compares sign, exponent and mantissa in turn. *)
Ltac sf_order :=
  repeat match goal with s : bool |- _ => destruct s end;
  simpl in *; try discriminate; try reflexivity;
  repeat match goal with
  | H : context [Z.compare ?a ?b] |- _ =>
      destruct (Z.compare_spec a b); simpl in H; try discriminate
  | H : context [Pos.compare_cont Eq ?a ?b] |- _ =>
      change (Pos.compare_cont Eq a b) with (Pos.compare a b) in H;
      destruct (Pos.compare_spec a b); simpl in H; try discriminate
  end;
  repeat match goal with
  | |- context [Z.compare ?a ?b] =>
      destruct (Z.compare_spec a b); simpl; try lia
  | |- context [Pos.compare_cont Eq ?a ?b] =>
      change (Pos.compare_cont Eq a b) with (Pos.compare a b);
      destruct (Pos.compare_spec a b); simpl; try lia
  end;
  try reflexivity; try discriminate; try lia.

Lemma SF_le_lt_trans (x y z : spec_float) :
  SFleb x y = true -> SFltb y z = true -> SFltb x z = true.
Proof.
  unfold SFleb, SFltb, SFcompare.
  destruct x as [sx|sx| |sx mx ex], y as [sy|sy| |sy my ey],
           z as [sz|sz| |sz mz ez];
    intros H1 H2; sf_order.
Qed.

Lemma SF_le_total (x y : spec_float) :
  SFleb x x = true -> SFleb y y = true ->
  SFltb x y = false -> SFleb y x = true.
Proof.
  unfold SFleb, SFltb, SFcompare.
  destruct x as [sx|sx| |sx mx ex], y as [sy|sy| |sy my ey];
    intros H1 H2 H3; sf_order.
Qed.

Lemma float_lt_le (x y : float) : (x <? y) = true -> (x <=? y) = true.
Proof.
  rewrite ltb_spec, leb_spec. unfold SFltb, SFleb.
  by destruct (SFcompare _ _) as [[]|].
Qed.

Lemma float_le_lt_trans (x y z : float) :
  (x <=? y) = true -> (y <? z) = true -> (x <? z) = true.
Proof. rewrite !ltb_spec, leb_spec. apply SF_le_lt_trans. Qed.

(** [x <= x] says that [x] is not NaN; two such floats are comparable. *)
Lemma float_le_total (x y : float) :
  (x <=? x) = true -> (y <=? y) = true ->
  (x <? y) = false -> (y <=? x) = true.
Proof. rewrite ltb_spec, !leb_spec. apply SF_le_total. Qed.

Lemma float_le_refl_r (z x : float) : (z <=? x) = true -> (x <=? x) = true.
Proof.
  rewrite !leb_spec. unfold SFleb, SFcompare.
  destruct (Prim2SF x) as [sx|sx| |sx mx ex], (Prim2SF z) as [sz|sz| |sz mz ez];
    intros H; sf_order.
Qed.

Lemma float_le_not_lt (x y : float) : (x <=? y) = true -> (y <? x) = false.
Proof.
  rewrite ltb_spec, leb_spec. unfold SFleb, SFltb, SFcompare.
  destruct (Prim2SF x) as [sx|sx| |sx mx ex], (Prim2SF y) as [sy|sy| |sy my ey];
    intros H; sf_order.
Qed.

Lemma float_lt_le_trans (x y z : float) :
  (x <? y) = true -> (y <=? z) = true -> (x <? z) = true.
Proof.
  rewrite !ltb_spec, leb_spec. unfold SFleb, SFltb, SFcompare.
  destruct (Prim2SF x) as [sx|sx| |sx mx ex], (Prim2SF y) as [sy|sy| |sy my ey],
           (Prim2SF z) as [sz|sz| |sz mz ez];
    intros H1 H2; sf_order.
Qed.



End Binary64.

(** ** Cosine similarity *)

Section CosineFacts.

Lemma foldl_cos_swap (l : list (float * float)) (s : acc) :
  foldl cos_step (swap_acc s) (prod_swap <$> l) = swap_acc (foldl cos_step s l).
Proof.
  revert s. induction l as [|[x y] l IH]; intros s; [done|].
  simpl. rewrite <- IH. f_equal.
  destruct s as [[d0 na0] nb0]. simpl. by rewrite (float_mul_comm y x).
Qed.

Lemma zip_swap {A B} (a : list A) (b : list B) :
  zip b a = prod_swap <$> zip a b.
Proof.
  revert b. induction a as [|x a IH]; intros [|y b]; simpl; try done.
  by rewrite IH.
Qed.

Lemma cos_loop_swap (a b : list float) :
  cos_loop b a = swap_acc (cos_loop a b).
Proof.
  unfold cos_loop. rewrite zip_swap.
  apply (foldl_cos_swap (zip a b) (0, 0, 0)).
Qed.

(** The second accumulator only sees [a], the third only [b]. *)
Lemma foldl_cos_normA_zero (l : list (float * float)) (d nb : float) :
  Forall (fun xy => (fst xy =? 0) = true) l ->
  (foldl cos_step (d, 0, nb) l).1.2 = 0.
Proof.
  revert d nb. induction l as [|[x y] l IH]; intros d nb H; [done|].
  inversion H as [|? ? Hx Hl]; subst. simpl in Hx |- *.
  rewrite (float_sq_zero x Hx).
  change (0 + 0) with 0. by apply IH.
Qed.

Lemma foldl_cos_normB_zero (l : list (float * float)) (d na : float) :
  Forall (fun xy => (snd xy =? 0) = true) l ->
  (foldl cos_step (d, na, 0) l).2 = 0.
Proof.
  revert d na. induction l as [|[x y] l IH]; intros d na H; [done|].
  inversion H as [|? ? Hy Hl]; subst. simpl in Hy |- *.
  rewrite (float_sq_zero y Hy).
  change (0 + 0) with 0. by apply IH.
Qed.

Lemma Forall_zip_fst {A B} (P : A -> Prop) (a : list A) (b : list B) :
  Forall P a -> Forall (fun xy => P (fst xy)) (zip a b).
Proof.
  intros H. revert b. induction H as [|x a Hx Ha IH]; intros [|y b];
    simpl; constructor; auto.
Qed.

Lemma Forall_zip_snd {A B} (P : B -> Prop) (a : list A) (b : list B) :
  Forall P b -> Forall (fun xy => P (snd xy)) (zip a b).
Proof.
  intros H. revert a. induction H as [|y b Hy Hb IH]; intros [|x a];
    simpl; constructor; auto.
Qed.

(** C7: [CosineSimilarity a b] is exactly [0] when the lengths differ,
    when either vector is empty, or when either vector has zero
    magnitude (all its components are zeros), whatever the other vector
    holds (NaN and infinities included). *)
Theorem CosineSimilarity_degenerate (a b : list float) :
  length a <> length b \/ a = [] \/ b = [] \/ zero_vector a \/ zero_vector b ->
  CosineSimilarity a b = 0.
Proof.
  intros H. unfold CosineSimilarity.
  destruct (Nat.eqb_spec (length a) (length b)) as [Hlen|Hlen]; [|done].
  destruct (Nat.eqb_spec (length a) 0) as [Ha|Ha]; [done|]. simpl.
  destruct H as [H | [Ha0 | [Hb0 | H]]];
    [done | by subst a | subst b; simpl in Hlen; lia |].
  destruct (cos_loop a b) as [[d na] nb] eqn:E.
  destruct H as [Hz | Hz].
  - pose proof (foldl_cos_normA_zero (zip a b) 0 0
                  (Forall_zip_fst _ a b Hz)) as Hn.
    unfold cos_loop in E. rewrite E in Hn. simpl in Hn. by subst na.
  - pose proof (foldl_cos_normB_zero (zip a b) 0 0
                  (Forall_zip_snd _ a b Hz)) as Hn.
    unfold cos_loop in E. rewrite E in Hn. simpl in Hn. subst nb.
    by rewrite orb_true_r.
Qed.

Lemma CosineSimilarity_degenerate_witness :
  CosineSimilarity [1; 2] [0; -0] = 0.
Proof.
  apply CosineSimilarity_degenerate. right; right; right; right.
  repeat constructor.
Defined.

Lemma CosineSimilarity_swap (a b : list float) :
  CosineSimilarity a b = CosineSimilarity b a.
Proof.
  unfold CosineSimilarity.
  destruct (Nat.eqb_spec (length a) (length b)) as [Hlen|Hlen].
  - rewrite <- Hlen, Nat.eqb_refl. simpl.
    destruct (length a =? 0)%nat; [done|].
    rewrite (cos_loop_swap a b).
    destruct (cos_loop a b) as [[d na] nb]. simpl.
    rewrite (orb_comm (nb =? 0)).
    destruct ((na =? 0) || (nb =? 0)); [done|].
    by rewrite (float_mul_comm (sqrt nb)).
  - destruct (Nat.eqb_spec (length b) (length a)) as [Hlen'|Hlen']; [|done].
    by rewrite Hlen' in Hlen.
Qed.

(** C8: cosine similarity is commutative: the two calls return the same
    binary64 value, and unless that value is NaN (which [==] tells
    apart from itself) the two results are [==]. *)
Theorem CosineSimilarity_comm (a b : list float) :
  CosineSimilarity a b = CosineSimilarity b a /\
  (is_nan (CosineSimilarity a b) = false ->
   (CosineSimilarity a b =? CosineSimilarity b a) = true).
Proof.
  split; [apply CosineSimilarity_swap|].
  rewrite <- (CosineSimilarity_swap a b). unfold is_nan.
  by destruct (CosineSimilarity a b =? CosineSimilarity a b).
Qed.

End CosineFacts.

(** ** The cache engine *)

Section CacheFacts.

Context {Rq Rs : Type}.
Implicit Types (w : @World Rq Rs) (h : gmap ptr (@CacheEntry Rq Rs)).
Implicit Types (e new old victim : @CacheEntry Rq Rs).
Implicit Types (es pre suf active : list ptr) (p q entry : ptr).

Lemma stored_Some w i e :
  stored w i = Some e <->
  exists p, entries (mc w) !! i = Some p /\ heap w !! p = Some e.
Proof.
  unfold stored. destruct (entries (mc w) !! i) as [p|]; simpl.
  - split; [eauto | by intros (? & [= <-] & ?)].
  - split; [done | by intros (? & ? & ?)].
Qed.

(** *** Cleanup *)

Lemma cleanup_scan_filter h now es active removed :
  Forall (fun p => is_Some (h !! p)) es ->
  cleanup_scan h now es active removed =
    Some (active ++ filter (fun p => expired h now p = false) es,
          (removed +
           Z.of_nat (length (filter (fun p => expired h now p = true) es)))%Z).
Proof.
  intros Hes. revert active removed.
  induction Hes as [|p es [e He] _ IH]; intros active removed; simpl.
  { by rewrite app_nil_r, Z.add_0_r. }
  rewrite He. simpl.
  assert (Hexp : expired h now p = negb (Before now (ExpiresAt e))).
  { unfold expired. by rewrite He. }
  destruct (Before now (ExpiresAt e)); simpl in Hexp.
  - rewrite IH. rewrite filter_cons_True, filter_cons_False by by rewrite Hexp.
    by rewrite <- app_assoc.
  - rewrite IH. rewrite filter_cons_False, filter_cons_True by by rewrite Hexp.
    f_equal. f_equal. simpl. lia.
Qed.

Lemma expired_spec h now p e :
  h !! p = Some e -> expired h now p = true <-> (ExpiresAt e <= now)%Z.
Proof.
  intros He. unfold expired, Before. rewrite He.
  destruct (Z.ltb_spec now (ExpiresAt e)); simpl; split; (done || lia).
Qed.

Lemma length_filter_split {A} (f : A -> bool) (l : list A) :
  (length (filter (fun x => f x = false) l) +
   length (filter (fun x => f x = true) l))%nat = length l.
Proof.
  induction l as [|x l IH]; [done|].
  destruct (f x) eqn:E.
  - rewrite filter_cons_False, filter_cons_True by by rewrite E.
    simpl. lia.
  - rewrite filter_cons_True, filter_cons_False by by rewrite E.
    simpl. lia.
Qed.

Lemma filter_all {A} (P : A -> Prop) `{!forall x, Decision (P x)} (l : list A) :
  Forall P l -> filter P l = l.
Proof.
  induction 1 as [|x l Hx _ IH]; [done|].
  by rewrite filter_cons_True, IH.
Qed.

Lemma filter_none {A} (P : A -> Prop) `{!forall x, Decision (P x)} (l : list A) :
  Forall (fun x => ~ P x) l -> filter P l = [].
Proof.
  induction 1 as [|x l Hx _ IH]; [done|].
  by rewrite filter_cons_False, IH.
Qed.

(** C5: [Cleanup] at time [now] keeps, in their order, exactly the
    stored entries that expire after [now] and removes those with
    [ExpiresAt <= now]; the entries themselves are not touched; it
    returns the number removed; called again at the same time it removes
    nothing and returns 0. *)
Theorem Cleanup_spec w (now : Time) :
  wf w ->
  exists w' (removed : Z),
    Cleanup now w = Some (w', removed) /\
    entries (mc w') = filter (fun p => expired (heap w) now p = false)
                             (entries (mc w)) /\
    (forall p e, p ∈ entries (mc w) -> heap w !! p = Some e ->
       (p ∈ entries (mc w') <-> (now < ExpiresAt e)%Z) /\
       (p ∉ entries (mc w') <-> (ExpiresAt e <= now)%Z)) /\
    heap w' = heap w /\
    removed = (Size w - Size w')%Z /\
    removed = Z.of_nat (length (filter (fun p => expired (heap w) now p = true)
                                       (entries (mc w)))) /\
    Cleanup now w' = Some (w', 0%Z).
Proof.
  intros Hwf. unfold Cleanup.
  rewrite (cleanup_scan_filter _ _ _ _ _ Hwf). simpl.
  set (kept := filter (fun p => expired (heap w) now p = false) (entries (mc w))).
  eexists _, _. split; [reflexivity|]. simpl.
  assert (Hkept : forall p e, p ∈ entries (mc w) -> heap w !! p = Some e ->
            (p ∈ kept <-> (now < ExpiresAt e)%Z)).
  { intros p e Hp He. unfold kept. rewrite list_elem_of_filter.
    pose proof (expired_spec _ now _ _ He) as Hexp.
    destruct (expired (heap w) now p); split; intros; try done.
    - assert (ExpiresAt e <= now)%Z by by apply Hexp. lia.
    - destruct Hexp as [Hexp _]. lia.
    - destruct (Z.le_gt_cases (ExpiresAt e) now) as [Hle|Hgt]; [|lia].
      by apply Hexp in Hle. }
  repeat split; try done.
  - by apply Hkept.
  - by apply Hkept.
  - intros Hnot. destruct (Z.le_gt_cases (ExpiresAt e) now); [done|].
    exfalso. apply Hnot. eapply Hkept; [done..|lia].
  - intros Hle Hin. eapply Hkept in Hin; [|done..]. lia.
  - unfold Size. simpl. fold kept.
    pose proof (length_filter_split (expired (heap w) now) (entries (mc w))).
    fold kept in H. lia.
  - assert (Hsub : Forall (fun p => is_Some (heap w !! p)) kept).
    { apply Forall_forall. intros p Hp. unfold kept in Hp.
      apply list_elem_of_filter in Hp as [_ Hp].
      eapply Forall_forall in Hwf; done. }
    rewrite (cleanup_scan_filter _ _ _ _ _ Hsub). simpl.
    rewrite (filter_all (fun p => expired (heap w) now p = false) kept).
    2:{ apply Forall_forall. intros p Hp. unfold kept in Hp.
        by apply list_elem_of_filter in Hp as [? _]. }
    rewrite (filter_none (fun p => expired (heap w) now p = true) kept).
    2:{ apply Forall_forall. intros p Hp. unfold kept in Hp.
        apply list_elem_of_filter in Hp as [Hp _]. by rewrite Hp. }
    done.
Qed.

(** *** Set: the scan for a near-duplicate *)

Lemma find_duplicate_spec h (embedding : list float) es (i0 : nat) :
  Forall (fun p => is_Some (h !! p)) es ->
  (exists (k : nat) p e,
      find_duplicate h embedding es i0 = Some (Some (i0 + k)%nat) /\
      es !! k = Some p /\ h !! p = Some e /\
      near_duplicate embedding e = true /\
      forall (j : nat) q e', (j < k)%nat -> es !! j = Some q -> h !! q = Some e' ->
        near_duplicate embedding e' = false) \/
  (find_duplicate h embedding es i0 = Some None /\
   forall (j : nat) q e', es !! j = Some q -> h !! q = Some e' ->
     near_duplicate embedding e' = false).
Proof.
  intros Hes. revert i0.
  induction Hes as [|p es [e He] _ IH]; intros i0; simpl.
  { right. split; [done|]. by intros j q e' ?. }
  rewrite He. simpl. fold (near_duplicate embedding e).
  destruct (near_duplicate embedding e) eqn:Hdup.
  - left. exists 0%nat, p, e. rewrite Nat.add_0_r.
    repeat split; try done. intros j q e' Hj. lia.
  - destruct (IH (S i0)) as [(k & p' & e1 & Hfind & Hk & Hp' & Hd & Hbefore)
                            | [Hfind Hnone]].
    + left. exists (S k), p', e1.
      rewrite Hfind. replace (i0 + S k)%nat with (S i0 + k)%nat by lia.
      repeat split; try done.
      intros [|j] q e' Hj Hq He'; simpl in Hq.
      * by simplify_eq.
      * eapply Hbefore; [|done..]. lia.
    + right. split; [done|].
      intros [|j] q e' Hq He'; simpl in Hq.
      * by simplify_eq.
      * by eapply Hnone.
Qed.

(** What [Set] does when some stored entry is a near-duplicate of the
    new one: the first such entry, at index [i], is overwritten. *)
Lemma Set_near_duplicate w entry new :
  wf w -> heap w !! entry = Some new ->
  (exists (j : nat) e, stored w j = Some e /\
     near_duplicate (Embedding new) e = true) ->
  exists (i : nat) old,
    stored w i = Some old /\
    near_duplicate (Embedding new) old = true /\
    (forall (j : nat) e, (j < i)%nat -> stored w j = Some e ->
       near_duplicate (Embedding new) e = false) /\
    Set_ entry w = Some (with_entries (<[i := entry]> (entries (mc w))) w).
Proof.
  intros Hwf Hnew (j & e & Hj & Hdup).
  apply stored_Some in Hj as (pj & Hpj & Hej).
  unfold Set_. destruct (entries (mc w)) as [|p0 es0] eqn:Hes; [done|].
  cbv iota zeta. rewrite Hnew. cbn [mbind option_bind]. rewrite <- Hes in *.
  destruct (find_duplicate_spec (heap w) (Embedding new) _ 0 Hwf)
    as [(k & p & e1 & Hfind & Hk & Hp & Hd & Hbefore) | [Hfind Hnone]].
  - exists k, e1. rewrite Hfind. simpl. repeat split; try done.
    + apply stored_Some. eauto.
    + intros j' e' Hj' Hst. apply stored_Some in Hst as (q & Hq & He').
      by eapply Hbefore.
  - rewrite (Hnone j pj e Hpj Hej) in Hdup. done.
Qed.

(** C4: when a stored entry has similarity above 0.99 to the new
    entry's embedding, [Set] overwrites such an entry (the first one
    it scans) in place: its slot now holds the new entry, every other
    slot is as before, and [Size] is unchanged. *)
Theorem Set_updates_in_place w entry new :
  wf w -> heap w !! entry = Some new ->
  (exists (j : nat) e, stored w j = Some e /\
     (0.99 <? CosineSimilarity (Embedding new) (Embedding e)) = true) ->
  exists w' (i : nat) old,
    Set_ entry w = Some w' /\
    stored w i = Some old /\
    (0.99 <? CosineSimilarity (Embedding new) (Embedding old)) = true /\
    (forall (j : nat) e, (j < i)%nat -> stored w j = Some e ->
       (0.99 <? CosineSimilarity (Embedding new) (Embedding e)) = false) /\
    entries (mc w') = <[i := entry]> (entries (mc w)) /\
    stored w' i = Some new /\
    (forall j : nat, j <> i -> stored w' j = stored w j) /\
    heap w' = heap w /\
    Size w' = Size w.
Proof.
  intros Hwf Hnew Hex.
  destruct (Set_near_duplicate w entry new Hwf Hnew Hex)
    as (i & old & Hold & Hdup & Hfirst & HSet).
  eexists _, i, old. split; [exact HSet|].
  apply stored_Some in Hold as Hold'. destruct Hold' as (p & Hp & _).
  apply lookup_lt_Some in Hp as Hlt.
  repeat split; try done.
  - unfold stored. simpl. by rewrite list_lookup_insert_eq.
  - intros j Hne. unfold stored. simpl. by rewrite list_lookup_insert_ne.
  - unfold Size. simpl. by rewrite length_insert.
Qed.

(** *** Eviction *)

Lemma oldest_scan_spec h pre suf (oldestIdx : nat) (oldestTime : Time) :
  Forall (fun p => is_Some (h !! p)) suf ->
  oldest_inv h (pre ++ suf) (length pre) oldestIdx oldestTime ->
  exists (k : nat) (t : Time),
    oldest_scan h suf (length pre) oldestIdx oldestTime = Some (k, t) /\
    oldest_inv h (pre ++ suf) (length (pre ++ suf)) k t.
Proof.
  intros Hsuf. revert pre oldestIdx oldestTime.
  induction Hsuf as [|p suf [e He] _ IH]; intros pre idx t Hinv; simpl.
  { exists idx, t. split; [done|]. by rewrite app_nil_r in *. }
  rewrite He. simpl.
  assert (Hp : (pre ++ p :: suf) !! length pre = Some p)
    by by rewrite list_lookup_middle.
  assert (Heq : pre ++ p :: suf = (pre ++ [p]) ++ suf)
    by by rewrite <- app_assoc.
  rewrite Heq in *. clear Heq.
  replace (S (length pre)) with (length (pre ++ [p]))
    by (rewrite length_app; simpl; lia).
  destruct Hinv as ((pk & ek & Hk & Hek & Ht) & Hle & Hlt).
  unfold Before. destruct (Z.ltb_spec (LastHitAt e) t) as [Hlt'|Hge].
  - apply IH. split; [eauto|]. split.
    + intros j q e' Hj Hq He'. rewrite length_app in Hj. simpl in Hj.
      destruct (decide (j = length pre)) as [->|Hne].
      { by simplify_eq. }
      assert (t <= LastHitAt e')%Z by (apply (Hle j q e'); [lia|done..]). lia.
    + intros j q e' Hj Hq He'.
      assert (t <= LastHitAt e')%Z by (apply (Hle j q e'); [lia|done..]). lia.
  - apply IH. split; [eauto|]. split; [|done].
    intros j q e' Hj Hq He'. rewrite length_app in Hj. simpl in Hj.
    destruct (decide (j = length pre)) as [->|Hne].
    { by simplify_eq. }
    apply (Hle j q e'); [lia|done..].
Qed.

Lemma evictOldest_spec h es :
  Forall (fun p => is_Some (h !! p)) es -> es <> [] ->
  exists (k : nat) p victim,
    evictOldest h es = Some (remove_swap k es) /\
    es !! k = Some p /\ h !! p = Some victim /\
    (forall (j : nat) q e, es !! j = Some q -> h !! q = Some e ->
       (LastHitAt victim <= LastHitAt e)%Z) /\
    (forall (j : nat) q e, (j < k)%nat -> es !! j = Some q -> h !! q = Some e ->
       (LastHitAt victim < LastHitAt e)%Z).
Proof.
  intros Hes Hne. destruct es as [|p0 es0] eqn:E; [done|]. rewrite <- E in *.
  assert (H0 : is_Some (h !! p0)).
  { rewrite E in Hes. by inversion Hes. }
  destruct H0 as [e0 He0].
  destruct (oldest_scan_spec h [] es 0 (LastHitAt e0) Hes)
    as (k & t & Hscan & (pk & ek & Hk & Hek & Ht) & Hle & Hlt).
  { simpl. split; [|split].
    - exists p0, e0. by rewrite E.
    - intros j q e Hj. simpl in Hj. lia.
    - intros j q e Hj. lia. }
  simpl in *. exists k, pk, ek.
  assert (Hev : evictOldest h es = Some (remove_swap k es)).
  { unfold evictOldest. rewrite E. rewrite E in Hscan.
    rewrite He0. cbn [mbind option_bind].
    change (@nil ptr) with (@nil positive) in Hscan. simpl length in Hscan.
    by rewrite Hscan. }
  subst t. repeat split; try done.
  intros j q e Hq He. apply (Hle j q e); [|done..]. by eapply lookup_lt_Some.
Qed.

Lemma remove_swap_length (k : nat) es :
  es <> [] -> length (remove_swap k es) = (length es - 1)%nat.
Proof.
  intros Hne. unfold remove_swap.
  destruct (last es) as [l|] eqn:Hl.
  - rewrite length_take, length_insert. lia.
  - by apply last_None in Hl.
Qed.

Lemma remove_swap_Permutation (k : nat) es p :
  es !! k = Some p -> remove_swap k es ≡ₚ delete k es.
Proof.
  intros Hk. unfold remove_swap.
  destruct (last es) as [l|] eqn:Hl.
  2:{ apply last_None in Hl. by subst. }
  apply last_Some in Hl as [es0 ->].
  rewrite length_app. simpl.
  replace (length es0 + 1 - 1)%nat with (length es0) by lia.
  apply lookup_lt_Some in Hk as Hlt. rewrite length_app in Hlt. simpl in Hlt.
  destruct (decide (k = length es0)) as [->|Hne].
  - rewrite take_insert_ge, take_app_length by lia.
    by rewrite delete_middle, app_nil_r.
  - assert (Hk0 : (k < length es0)%nat) by lia.
    apply lookup_lt_is_Some in Hk0 as [x Hx].
    pose proof (take_drop_middle es0 k x Hx) as Hsplit.
    assert (Hlen : length (take k es0) = k) by (rewrite length_take; lia).
    revert Hsplit Hlen.
    generalize (take k es0) (drop (S k) es0). intros a b <- <-.
    rewrite <- !app_assoc. simpl.
    rewrite delete_middle.
    rewrite insert_app_r_alt by lia. rewrite Nat.sub_diag. simpl.
    rewrite length_app. simpl.
    rewrite take_app_ge by lia.
    replace (length a + S (length b) - length a)%nat with (S (length b)) by lia.
    simpl. rewrite take_app_length.
    apply Permutation_app_head. apply Permutation_cons_append.
Qed.

(** What [Set] does when no stored entry is a near-duplicate. *)
Lemma Set_fresh w entry new :
  wf w -> heap w !! entry = Some new ->
  (forall (j : nat) e, stored w j = Some e ->
     near_duplicate (Embedding new) e = false) ->
  Set_ entry w =
    es1 ← (if (MaxSize (opts (mc w)) <=? Z.of_nat (length (entries (mc w))))%Z
           then evictOldest (heap w) (entries (mc w))
           else Some (entries (mc w)));
    Some (with_entries (es1 ++ [entry]) w).
Proof.
  intros Hwf Hnew Hnone. unfold Set_.
  destruct (entries (mc w)) as [|p0 es0] eqn:Hes; [done|].
  cbv iota zeta. rewrite Hnew. cbn [mbind option_bind]. rewrite <- Hes in *.
  destruct (find_duplicate_spec (heap w) (Embedding new) _ 0 Hwf)
    as [(k & p & e1 & Hfind & Hk & Hp & Hd & Hbefore) | [Hfind Hnone']].
  - rewrite (Hnone k e1) in Hd; [done|]. apply stored_Some. eauto.
  - by rewrite Hfind.
Qed.

Lemma Set_evicts w entry new :
  wf w -> heap w !! entry = Some new ->
  (forall (j : nat) e, stored w j = Some e ->
     near_duplicate (Embedding new) e = false) ->
  entries (mc w) <> [] ->
  (MaxSize (opts (mc w)) <= Size w)%Z ->
  exists (k : nat) victim,
    Set_ entry w =
      Some (with_entries (remove_swap k (entries (mc w)) ++ [entry]) w) /\
    stored w k = Some victim /\
    (forall (j : nat) e, stored w j = Some e ->
       (LastHitAt victim <= LastHitAt e)%Z) /\
    (forall (j : nat) e, (j < k)%nat -> stored w j = Some e ->
       (LastHitAt victim < LastHitAt e)%Z).
Proof.
  intros Hwf Hnew Hnone Hne Hfull.
  rewrite (Set_fresh w entry new Hwf Hnew Hnone).
  unfold Size in Hfull.
  destruct (Z.leb_spec (MaxSize (opts (mc w)))
              (Z.of_nat (length (entries (mc w))))) as [_|?]; [|lia].
  destruct (evictOldest_spec (heap w) _ Hwf Hne)
    as (k & p & victim & Hev & Hk & Hp & Hle & Hlt).
  exists k, victim. rewrite Hev. simpl. repeat split; try done.
  - apply stored_Some. eauto.
  - intros j e Hst. apply stored_Some in Hst as (q & Hq & He).
    by apply (Hle j q e).
  - intros j e Hj Hst. apply stored_Some in Hst as (q & Hq & He).
    by apply (Hlt j q e).
Qed.

(** C2: when [Set] has to evict (no near-duplicate, cache at capacity)
    it removes one stored entry, the [victim], whose last-hit time is
    the earliest of all (the first such entry in storage order).  If the last-hit times are the zero time or
    later and some entry was never hit (zero last-hit time), the victim
    is a never-hit entry, whatever the creation times.  With two stored
    entries, [A] never hit and [B] hit, storing a third entry leaves
    [B] and the new entry. *)
Theorem Set_evicts_oldest w entry new :
  wf w -> heap w !! entry = Some new ->
  (forall (j : nat) e, stored w j = Some e ->
     (0.99 <? CosineSimilarity (Embedding new) (Embedding e)) = false) ->
  entries (mc w) <> [] ->
  (MaxSize (opts (mc w)) <= Size w)%Z ->
  exists w' (k : nat) victim,
    Set_ entry w = Some w' /\
    stored w k = Some victim /\
    entries (mc w') ≡ₚ delete k (entries (mc w)) ++ [entry] /\
    (forall (j : nat) e, stored w j = Some e ->
       (LastHitAt victim <= LastHitAt e)%Z) /\
    (forall (j : nat) e, (j < k)%nat -> stored w j = Some e ->
       (LastHitAt victim < LastHitAt e)%Z) /\
    ((forall (j : nat) e, stored w j = Some e -> (zeroTime <= LastHitAt e)%Z) ->
     (exists (j : nat) e, stored w j = Some e /\ LastHitAt e = zeroTime) ->
     LastHitAt victim = zeroTime) /\
    (forall pa pb A B,
       entries (mc w) = [pa; pb] \/ entries (mc w) = [pb; pa] ->
       heap w !! pa = Some A -> heap w !! pb = Some B ->
       LastHitAt A = zeroTime -> (zeroTime < LastHitAt B)%Z ->
       entries (mc w') = [pb; entry]).
Proof.
  intros Hwf Hnew Hnone Hne Hfull.
  destruct (Set_evicts w entry new Hwf Hnew Hnone Hne Hfull)
    as (k & victim & HSet & Hk & Hle & Hlt).
  eexists _, k, victim. split; [exact HSet|]. simpl.
  split; [done|]. split; [|split; [done|split; [done|split]]].
  - apply stored_Some in Hk as (p & Hp & _).
    by rewrite (remove_swap_Permutation k _ p Hp).
  - intros Hreal (j & e & Hj & Hz).
    pose proof (Hle j e Hj). pose proof (Hreal k victim Hk). lia.
  - intros pa pb A B Hes HA HB HzA HzB.
    assert (Hmin : (LastHitAt victim <= zeroTime)%Z).
    { rewrite <- HzA.
      destruct Hes as [Hes|Hes].
      - apply (Hle 0%nat). unfold stored. rewrite Hes. simpl. done.
      - apply (Hle 1%nat). unfold stored. rewrite Hes. simpl. done. }
    unfold stored in Hk.
    destruct Hes as [Hes|Hes]; rewrite Hes in Hk |- *;
      destruct k as [|[|k]]; simpl in Hk; try done.
    + rewrite HB in Hk. simplify_eq. lia.
    + rewrite HB in Hk. simplify_eq. lia.
Qed.

(** C10: when [Set] finds a near-duplicate, the slot holds the new entry
    afterwards, hit count and last-hit time included: nothing of the
    overwritten entry is kept.  If the new entry was never hit, a later
    eviction takes a never-hit entry, at this slot or before it, however
    often the overwritten entry had been hit. *)
Theorem Set_discards_hit_stats w entry new :
  wf w -> heap w !! entry = Some new ->
  (exists (j : nat) e, stored w j = Some e /\
     (0.99 <? CosineSimilarity (Embedding new) (Embedding e)) = true) ->
  exists w' (i : nat) old,
    Set_ entry w = Some w' /\
    stored w i = Some old /\
    (0.99 <? CosineSimilarity (Embedding new) (Embedding old)) = true /\
    stored w' i = Some new /\
    HitCount <$> stored w' i = Some (HitCount new) /\
    LastHitAt <$> stored w' i = Some (LastHitAt new) /\
    (LastHitAt new = zeroTime ->
     (forall (j : nat) e, stored w' j = Some e -> (zeroTime <= LastHitAt e)%Z) ->
     exists (k : nat) victim,
       evictOldest (heap w') (entries (mc w')) =
         Some (remove_swap k (entries (mc w'))) /\
       stored w' k = Some victim /\
       LastHitAt victim = zeroTime /\ (k <= i)%nat).
Proof.
  intros Hwf Hnew Hex.
  destruct (Set_near_duplicate w entry new Hwf Hnew Hex)
    as (i & old & Hold & Hdup & _ & HSet).
  eexists _, i, old. split; [exact HSet|].
  apply stored_Some in Hold as Hold'. destruct Hold' as (p & Hp & _).
  apply lookup_lt_Some in Hp as Hlt.
  assert (Hi : stored (with_entries (<[i:=entry]> (entries (mc w))) w) i
               = Some new).
  { unfold stored. simpl. by rewrite list_lookup_insert_eq. }
  rewrite Hi. repeat split; try done.
  intros Hzero Hreal. simpl.
  destruct (evictOldest_spec (heap w) (<[i:=entry]> (entries (mc w))))
    as (k & pk & victim & Hev & Hk & Hpk & Hle & Hlt').
  { apply Forall_insert; [done|]. by eexists. }
  { intros Hnil. apply (f_equal length) in Hnil.
    rewrite length_insert in Hnil. simpl in Hnil. lia. }
  exists k, victim.
  assert (Hkst : stored (with_entries (<[i:=entry]> (entries (mc w))) w) k
                 = Some victim).
  { apply stored_Some. simpl. eauto. }
  assert (Hii : <[i:=entry]> (entries (mc w)) !! i = Some entry)
    by by rewrite list_lookup_insert_eq.
  repeat split; try done.
  - pose proof (Hle i entry new Hii Hnew). pose proof (Hreal k victim Hkst).
    lia.
  - destruct (decide (k <= i)%nat) as [|Hgt]; [done|].
    assert (LastHitAt victim < LastHitAt new)%Z
      by (apply (Hlt' i entry new); [lia|done..]).
    pose proof (Hreal k victim Hkst). lia.
Qed.

(** *** Filling the cache *)

Lemma run_app (evs1 evs2 : list Event) w :
  run (evs1 ++ evs2) w = w' ← run evs1 w; run evs2 w'.
Proof.
  revert w. induction evs1 as [|ev evs1 IH]; intros w; simpl; [done|].
  destruct (exec ev w) as [w1|]; simpl; [apply IH | done].
Qed.

(** Storing, one after the other, entries none of which is a
    near-duplicate of one stored before it, into an empty cache with
    room for all of them: they are appended in order. *)
Lemma run_Set_distinct h (o : Options) (ps : list ptr) :
  (Z.of_nat (length ps) <= MaxSize o)%Z ->
  Forall (fun p => is_Some (h !! p)) ps ->
  (forall (i j : nat) pi pj ei ej, (i < j)%nat ->
     ps !! i = Some pi -> ps !! j = Some pj ->
     h !! pi = Some ei -> h !! pj = Some ej ->
     near_duplicate (Embedding ej) ei = false) ->
  run (CallSet <$> ps)
      {| heap := h; mc := NewMemoryCache (Some o); pending := [] |} =
  Some {| heap := h;
          mc := {| entries := ps; opts := o; hits := 0; misses := 0 |};
          pending := [] |}.
Proof.
  induction ps as [|p ps IH] using rev_ind; intros Hlen Hall Hpair; [done|].
  rewrite length_app in Hlen. simpl in Hlen.
  apply Forall_app in Hall as [Hall Hp].
  apply Forall_singleton in Hp as [e He].
  rewrite fmap_app, run_app, IH; [|lia|done|]; last first.
  { intros i j pi pj ei ej Hij Hi Hj.
    apply (Hpair i j pi pj ei ej Hij).
    - by apply lookup_app_l_Some.
    - by apply lookup_app_l_Some. }
  cbn [mbind option_bind fmap list_fmap run exec].
  set (w1 := {| heap := h;
                mc := {| entries := ps; opts := o; hits := 0; misses := 0 |};
                pending := [] |}).
  rewrite (Set_fresh w1 p e); [|done..|].
  - simpl. destruct (Z.leb_spec (MaxSize o) (Z.of_nat (length ps))); [lia|].
    done.
  - intros j ej Hst. apply stored_Some in Hst as (pj & Hpj & Hej).
    simpl in Hpj, Hej.
    apply (Hpair j (length ps) pj p ej e).
    + by eapply lookup_lt_Some.
    + by apply lookup_app_l_Some.
    + by rewrite list_lookup_middle.
    + done.
    + done.
Qed.

(** C3, for a capacity of at least one: after [N] entries, none a
    near-duplicate of an earlier one, are stored into an empty cache of
    capacity [N], they are all stored; storing one more such entry
    leaves [N] entries: the new one and all the earlier ones but
    one. *)
Theorem capacity_bound (N : nat) (o : Options) h (ps : list ptr) q :
  (1 <= N)%nat -> MaxSize o = Z.of_nat N -> length ps = N ->
  Forall (fun p => is_Some (h !! p)) (ps ++ [q]) ->
  (forall (i j : nat) pi pj ei ej, (i < j)%nat ->
     (ps ++ [q]) !! i = Some pi -> (ps ++ [q]) !! j = Some pj ->
     h !! pi = Some ei -> h !! pj = Some ej ->
     (0.99 <? CosineSimilarity (Embedding ej) (Embedding ei)) = false) ->
  exists w1 w2 (k : nat) (pv : ptr),
    run (CallSet <$> ps)
        {| heap := h; mc := NewMemoryCache (Some o); pending := [] |}
      = Some w1 /\
    entries (mc w1) = ps /\ Size w1 = Z.of_nat N /\
    Set_ q w1 = Some w2 /\
    (Size w2 <= Z.of_nat N)%Z /\
    ps !! k = Some pv /\
    entries (mc w2) ≡ₚ delete k ps ++ [q].
Proof.
  intros HN Hmax Hlen Hall Hpair.
  apply Forall_app in Hall as [Hall Hq].
  apply Forall_singleton in Hq as [eq Heq].
  eexists _. rewrite (run_Set_distinct h o ps); [|lia|done|]; last first.
  { intros i j pi pj ei ej Hij Hi Hj.
    apply (Hpair i j pi pj ei ej Hij); by apply lookup_app_l_Some. }
  set (w1 := {| heap := h;
                mc := {| entries := ps; opts := o; hits := 0; misses := 0 |};
                pending := [] |}).
  destruct (Set_evicts w1 q eq) as (k & victim & HSet & Hk & _); try done.
  { intros j ej Hst. apply stored_Some in Hst as (pj & Hpj & Hej).
    simpl in Hpj, Hej.
    apply (Hpair j (length ps) pj q ej eq).
    - by eapply lookup_lt_Some.
    - by apply lookup_app_l_Some.
    - by rewrite list_lookup_middle.
    - done.
    - done. }
  { simpl. intros ->. simpl in Hlen. lia. }
  { unfold Size. simpl. lia. }
  apply stored_Some in Hk as (pk & Hpk & _). simpl in Hpk.
  exists (with_entries (remove_swap k ps ++ [q]) w1), k, pk.
  split; [done|]. split; [done|]. split; [unfold Size; simpl; lia|].
  split; [done|]. split; [|split; [done|]].
  - unfold Size. simpl. rewrite length_app, remove_swap_length.
    + simpl. lia.
    + intros ->. simpl in Hlen. lia.
  - simpl. by rewrite (remove_swap_Permutation k ps pk Hpk).
Qed.

(** *** Get *)

Lemma get_inv_skip h now (embedding : list float) (threshold : float)
    pre p (best : option ptr) (bs : float) :
  get_inv h now embedding threshold pre best bs ->
  (forall e, h !! p = Some e -> live now e ->
     (threshold <=? CosineSimilarity embedding (Embedding e)) = true ->
     (CosineSimilarity embedding (Embedding e) <=? bs) = true) ->
  get_inv h now embedding threshold (pre ++ [p]) best bs.
Proof.
  intros (H0 & Hmax & Hbest) Hp. split; [done|]. split.
  - intros j q e Hj Hq Hlive Hthr.
    apply lookup_snoc_Some in Hj as [[_ Hj] | [_ <-]].
    + by apply (Hmax j q e).
    + by apply Hp.
  - destruct best as [pb|]; [|done].
    destruct Hbest as (i & e & Hi & He & Hlive & Hbs & Hthr & Hpos & Hfirst).
    exists i, e. repeat split; try done.
    + by apply lookup_app_l_Some.
    + intros j q e' Hj Hq. apply lookup_lt_Some in Hi.
      apply lookup_snoc_Some in Hq as [[_ Hq] | [? _]]; [|lia].
      by apply (Hfirst j q e').
Qed.

Lemma get_scan_spec h now (embedding : list float) (threshold : float)
    pre suf (best : option ptr) (bs : float) :
  Forall (fun p => is_Some (h !! p)) suf ->
  get_inv h now embedding threshold pre best bs ->
  exists (best' : option ptr) (bs' : float),
    get_scan h now embedding threshold suf best bs = Some (best', bs') /\
    get_inv h now embedding threshold (pre ++ suf) best' bs'.
Proof.
  intros Hsuf. revert pre best bs.
  induction Hsuf as [|p suf [e He] _ IH]; intros pre best bs Hinv; simpl.
  { exists best, bs. by rewrite app_nil_r. }
  rewrite He. simpl.
  replace (pre ++ p :: suf) with ((pre ++ [p]) ++ suf)
    by by rewrite <- app_assoc.
  destruct (After now (ExpiresAt e)) eqn:Hafter.
  { apply IH, get_inv_skip; [done|].
    intros e' He' Hlive. unfold live in Hlive. simplify_eq. congruence. }
  set (s := CosineSimilarity embedding (Embedding e)).
  destruct (threshold <=? s) eqn:Hthr; simpl.
  2:{ apply IH, get_inv_skip; [done|].
      intros e' He' _ Hthr'. simplify_eq. fold s in Hthr'. congruence. }
  destruct (bs <? s) eqn:Hlt.
  2:{ apply IH, get_inv_skip; [done|].
      intros e' He' _ _. simplify_eq. fold s.
      destruct Hinv as (H0 & _).
      apply float_le_total; [by eapply float_le_refl_r..|done]. }
  apply IH. destruct Hinv as (H0 & Hmax & _).
  assert (Hpos : (0 <? s) = true) by by eapply float_le_lt_trans.
  assert (Hbelow : forall (j : nat) q e', pre !! j = Some q -> h !! q = Some e' ->
            live now e' ->
            (threshold <=? CosineSimilarity embedding (Embedding e')) = true ->
            (CosineSimilarity embedding (Embedding e') <? s) = true).
  { intros j q e' Hj Hq Hlive Hthr'.
    eapply float_le_lt_trans; [|exact Hlt]. by apply (Hmax j q e'). }
  split; [by apply float_lt_le|]. split.
  - intros j q e' Hj Hq Hlive Hthr'.
    apply lookup_snoc_Some in Hj as [[_ Hj] | [_ <-]].
    + apply float_lt_le. by apply (Hbelow j q e').
    + simplify_eq. by eapply float_le_refl_r.
  - exists (length pre), e. repeat split; try done.
    + by rewrite list_lookup_middle.
    + intros j q e' Hj Hq. apply lookup_snoc_Some in Hq as [[_ Hq] | [? _]]; [|lia].
      by apply (Hbelow j q e').
Qed.

(** The result of the scan of [Get] over the whole cache. *)
Lemma Get_scan w now (embedding : list float) (threshold : float) :
  wf w ->
  exists (best : option ptr) (bs : float),
    get_scan (heap w) now embedding threshold (entries (mc w)) None 0
      = Some (best, bs) /\
    get_inv (heap w) now embedding threshold (entries (mc w)) best bs.
Proof.
  intros Hwf.
  apply (get_scan_spec (heap w) now embedding threshold [] _ None 0 Hwf).
  split; [reflexivity|]. split; [|done]. by intros j q e ?.
Qed.

(** C1, with the restriction the code makes: [Get] returns a live entry
    whose similarity meets the threshold, is above [0] and is the
    highest among the live entries that meet the threshold, together
    with that similarity and [true]; it returns [(nil, 0, false)] when no
    live entry has a similarity that meets the threshold and is above
    [0], which for a threshold above [0] means that no live entry meets
    the threshold.  The stored entries are not changed. *)
Theorem Get_best_match w now (embedding : list float) (threshold : float) :
  wf w ->
  exists w' (r : option ptr * float * bool),
    Get now embedding threshold w = Some (w', r) /\
    heap w' = heap w /\ entries (mc w') = entries (mc w) /\
    ((exists (i : nat) p e,
        r = (Some p, CosineSimilarity embedding (Embedding e), true) /\
        entries (mc w) !! i = Some p /\ heap w !! p = Some e /\
        live now e /\
        (threshold <=? CosineSimilarity embedding (Embedding e)) = true /\
        (0 <? CosineSimilarity embedding (Embedding e)) = true /\
        forall (j : nat) e', stored w j = Some e' -> live now e' ->
          (threshold <=? CosineSimilarity embedding (Embedding e')) = true ->
          (CosineSimilarity embedding (Embedding e')
             <=? CosineSimilarity embedding (Embedding e)) = true) \/
     (r = (None, 0, false) /\
      (forall (j : nat) e', stored w j = Some e' -> live now e' ->
         (threshold <=? CosineSimilarity embedding (Embedding e')) = true ->
         (0 <? CosineSimilarity embedding (Embedding e')) = false) /\
      ((0 <? threshold) = true ->
       forall (j : nat) e', stored w j = Some e' -> live now e' ->
         (threshold <=? CosineSimilarity embedding (Embedding e')) = false))).
Proof.
  intros Hwf.
  destruct (Get_scan w now embedding threshold Hwf)
    as (best & bs & Hscan & H0 & Hmax & Hbest).
  unfold Get. rewrite Hscan. cbn [mbind option_bind].
  destruct best as [p|].
  - destruct Hbest as (i & e & Hi & He & Hlive & -> & Hthr & Hpos & _).
    eexists _, _. split; [reflexivity|]. simpl.
    split; [done|]. split; [done|]. left.
    exists i, p, e. repeat split; try done.
    intros j e' Hst. apply stored_Some in Hst as (q & Hq & He').
    by apply (Hmax j q e').
  - subst bs. eexists _, _. split; [reflexivity|]. simpl.
    split; [done|]. split; [done|]. right.
    assert (Hnone : forall (j : nat) e', stored w j = Some e' -> live now e' ->
              (threshold <=? CosineSimilarity embedding (Embedding e')) = true ->
              (0 <? CosineSimilarity embedding (Embedding e')) = false).
    { intros j e' Hst Hlive Hthr.
      apply stored_Some in Hst as (q & Hq & He').
      apply float_le_not_lt. by apply (Hmax j q e'). }
    repeat split; try done.
    intros Hpos j e' Hst Hlive.
    destruct (threshold <=? CosineSimilarity embedding (Embedding e')) eqn:Hthr;
      [|done].
    pose proof (Hnone j e' Hst Hlive Hthr) as Hn.
    rewrite (float_lt_le_trans _ _ _ Hpos Hthr) in Hn. done.
Qed.


(** C9, as the code has it: a successful [Get] changes no entry; it
    starts one goroutine that holds the pointer to the matched entry.
    The hit count and the last-hit time change when that goroutine
    gets the lock, at the time it then reads, through the pointer: the
    entry need not be stored any more. *)
Theorem Get_defers_hit_stats w now (embedding : list float) (threshold : float)
    w' p (s : float) :
  Get now embedding threshold w = Some (w', (Some p, s, true)) ->
  heap w' = heap w /\
  entries (mc w') = entries (mc w) /\
  pending w' = pending w ++ [p] /\
  forall w2 (k : nat) (t : Time) e,
    pending w2 !! k = Some p -> heap w2 !! p = Some e ->
    exists w3,
      exec (RunUpdateHitStats k t) w2 = Some w3 /\
      heap w3 = <[p := {| Request := Request e; Response := Response e;
                          Embedding := Embedding e;
                          CreatedAt := CreatedAt e; ExpiresAt := ExpiresAt e;
                          HitCount := int64 (HitCount e + 1);
                          LastHitAt := t |}]> (heap w2) /\
      mc w3 = mc w2 /\ pending w3 = delete k (pending w2).
Proof.
  intros HGet. unfold Get in HGet.
  destruct (get_scan _ _ _ _ _ _ _) as [[best bs]|]; [|done].
  cbn [mbind option_bind] in HGet.
  destruct best as [pb|]; [|done]. simplify_eq. simpl.
  repeat split; try done.
  intros w2 k t e Hk He. unfold exec, updateHitStats.
  rewrite Hk. cbn [mbind option_bind]. rewrite He. cbn [mbind option_bind].
  eexists _. split; [reflexivity|]. simpl. by repeat split.
Qed.

End CacheFacts.

(** ** The worked scenario *)

Section ScenarioFacts.

Import Scenario.

Ltac wf_tac :=
  repeat (constructor; [by (eexists; vm_compute; reflexivity)|]); constructor.

Lemma run_two_stored : run [CallSet pA; CallSet pB] start = Some two_stored.
Proof. vm_compute. reflexivity. Qed.

Lemma run_hit_B : run hit_B start = Some B_hit.
Proof. vm_compute. reflexivity. Qed.

Lemma wf_two_stored : wf two_stored.
Proof. wf_tac. Defined.

Lemma wf_B_hit : wf B_hit.
Proof. wf_tac. Defined.

Ltac stored_cases H :=
  vm_compute in H; simplify_eq; vm_compute; reflexivity.

Lemma Get_best_match_witness :
  wf two_stored /\
  exists w',
    Get 3000 [0.99; 0.1; 0] 0.9 two_stored =
    Some (w', (Some pA, CosineSimilarity [0.99; 0.1; 0] [1; 0; 0], true)).
Proof.
  split; [exact wf_two_stored|].
  destruct (Get_best_match two_stored 3000 [0.99; 0.1; 0] 0.9 wf_two_stored)
    as (w' & r & HGet & _).
  exists w'. rewrite HGet. vm_compute in HGet. simplify_eq.
  vm_compute. reflexivity.
Defined.

(** With threshold [0], the live entry [A] has similarity [0 >= 0] to
    the query and [Get] reports no match. *)
Lemma Get_zero_threshold_counterexample :
  stored two_stored 0 = Some A /\ live 3000 A /\
  (0 <=? CosineSimilarity [0; 0; 1] (Embedding A)) = true /\
  snd <$> Get 3000 [0; 0; 1] 0 two_stored = Some (None, 0, false).
Proof. repeat split; vm_compute; reflexivity. Qed.

Lemma Set_evicts_oldest_witness :
  run hit_B start = Some B_hit /\ wf B_hit /\
  exists w', Set_ pC B_hit = Some w' /\ entries (mc w') = [pB; pC].
Proof.
  split; [exact run_hit_B|]. split; [exact wf_B_hit|].
  destruct (Set_evicts_oldest B_hit pC C) as (w' & k & victim & HSet & H).
  - exact wf_B_hit.
  - vm_compute. reflexivity.
  - intros [|[|j]] e Hst; stored_cases Hst.
  - done.
  - vm_compute. discriminate.
  - exists w'. split; [done|].
    destruct H as (_ & _ & _ & _ & _ & Hscenario).
    eapply (Hscenario pA pB A); [by left | vm_compute; reflexivity.. | done].
Defined.

Lemma capacity_bound_witness :
  exists w1 w2,
    run (CallSet <$> [pA; pB]) start = Some w1 /\
    Set_ pC w1 = Some w2 /\ (Size w2 <= 2)%Z.
Proof.
  destruct (capacity_bound 2 capacity2 (heap start) [pA; pB] pC)
    as (w1 & w2 & k & pv & Hrun & _ & _ & HSet & Hsize & _).
  - lia.
  - reflexivity.
  - reflexivity.
  - wf_tac.
  - intros [|[|[|i]]] [|[|[|j]]] pi pj ei ej Hij Hi Hj Hei Hej;
      try lia; vm_compute in Hi, Hj; simplify_eq;
      vm_compute in Hei, Hej; simplify_eq; vm_compute; reflexivity.
  - exists w1, w2. done.
Defined.

(** Capacity [0]: nothing can be evicted from the empty cache and the
    entry is stored all the same. *)
Lemma capacity_zero_counterexample :
  MaxSize (opts (mc capacity0)) = 0%Z /\
  run (CallSet <$> []) capacity0 = Some capacity0 /\
  exists w, Set_ pA capacity0 = Some w /\ Size w = 1%Z /\
            ~ (Size w <= MaxSize (opts (mc capacity0)))%Z.
Proof.
  split; [reflexivity|]. split; [reflexivity|].
  eexists. split; [vm_compute; reflexivity|]. split; [reflexivity|].
  vm_compute. intros H. by apply H.
Qed.

Lemma Set_updates_in_place_witness :
  wf (with_D B_hit) /\
  (0.99 <? CosineSimilarity (Embedding D) (Embedding B)) = true /\
  exists w',
    Set_ pD (with_D B_hit) = Some w' /\
    entries (mc w') = [pA; pD] /\ Size w' = Size (with_D B_hit).
Proof.
  assert (Hwf : wf (with_D B_hit)) by wf_tac.
  split; [exact Hwf|]. split; [vm_compute; reflexivity|].
  destruct (Set_updates_in_place (with_D B_hit) pD D Hwf)
    as (w' & i & old & HSet & _ & _ & _ & _ & _ & _ & _ & Hsize).
  - vm_compute. reflexivity.
  - exists 1%nat. eexists. split; vm_compute; reflexivity.
  - exists w'. split; [done|]. split; [|done].
    vm_compute in HSet. simplify_eq. reflexivity.
Defined.

Lemma Cleanup_spec_witness :
  wf two_stored /\
  exists w',
    Cleanup (1000 + hour) two_stored = Some (w', 1%Z) /\
    entries (mc w') = [pB] /\
    Cleanup (1000 + hour) w' = Some (w', 0%Z).
Proof.
  split; [exact wf_two_stored|].
  destruct (Cleanup_spec two_stored (1000 + hour)%Z wf_two_stored)
    as (w' & removed & HC & Hes & _ & _ & _ & Hrem & Hagain).
  exists w'. vm_compute in Hrem. subst removed.
  split; [done|]. split; [|done].
  rewrite Hes. vm_compute. reflexivity.
Defined.


Lemma Get_defers_hit_stats_witness :
  exists w',
    Get 3000 [0; 1; 0] 0.9 two_stored = Some (w', (Some pB, 1, true)) /\
    heap w' = heap two_stored /\ pending w' = [pB].
Proof.
  destruct (Get 3000 [0; 1; 0] 0.9 two_stored) as [[w' r]|] eqn:HGet;
    [|vm_compute in HGet; discriminate].
  assert (r = (Some pB, 1, true)) as ->
    by (vm_compute in HGet; by simplify_eq).
  destruct (Get_defers_hit_stats two_stored 3000 [0; 1; 0] 0.9 w' pB 1 HGet)
    as (Hheap & _ & Hpending & _).
  exists w'. done.
Defined.

(** [Get] returns with the hit count and the last-hit time of the
    matched entry [B] as they were, and a goroutine pending.  If the
    cache is cleared before the goroutine gets the lock, the goroutine
    counts the hit on an entry that is not stored any more. *)
Lemma Get_hit_stats_counterexample :
  exists w1 w2,
    Get 3000 [0; 1; 0] 0.9 two_stored = Some (w1, (Some pB, 1, true)) /\
    heap w1 !! pB = Some B /\
    HitCount B = 0%Z /\ LastHitAt B = zeroTime /\
    pending w1 = [pB] /\
    run [CallClear; RunUpdateHitStats 0 3001] w1 = Some w2 /\
    entries (mc w2) = [] /\
    HitCount <$> heap w2 !! pB = Some 1%Z /\
    LastHitAt <$> heap w2 !! pB = Some 3001%Z.
Proof.
  eexists _, _. split; [vm_compute; reflexivity|].
  split; [vm_compute; reflexivity|].
  split; [reflexivity|]. split; [reflexivity|]. split; [reflexivity|].
  split; [vm_compute; reflexivity|].
  repeat split; vm_compute; reflexivity.
Qed.

Lemma Set_discards_hit_stats_witness :
  wf (with_D B_hit) /\
  HitCount <$> stored (with_D B_hit) 1 = Some 1%Z /\
  LastHitAt <$> stored (with_D B_hit) 1 = Some 3001%Z /\
  exists w',
    Set_ pD (with_D B_hit) = Some w' /\
    HitCount <$> stored w' 1 = Some 0%Z /\
    LastHitAt <$> stored w' 1 = Some zeroTime.
Proof.
  assert (Hwf : wf (with_D B_hit)) by wf_tac.
  split; [exact Hwf|]. split; [vm_compute; reflexivity|].
  split; [vm_compute; reflexivity|].
  destruct (Set_discards_hit_stats (with_D B_hit) pD D Hwf)
    as (w' & i & old & HSet & Hold & Hdup & _ & Hhit & Hlast & _).
  - vm_compute. reflexivity.
  - exists 1%nat. eexists. split; vm_compute; reflexivity.
  - exists w'. split; [done|].
    assert (i = 1%nat) as ->; [|done].
    destruct i as [|[|i]]; [|done|].
    + vm_compute in Hold, Hdup. by simplify_eq.
    + vm_compute in Hold. discriminate.
Defined.

End ScenarioFacts.
(** ** More facts on binary64: subtraction and squares *)

Section Binary64Sub.

(** The sign given to the rounding only shows in the sign of its
    result. *)
Lemma binary_round_aux_abs (m : Z) (e : Z) (l : location) :
  SFabs (binary_round_aux prec emax true m e l) =
  SFabs (binary_round_aux prec emax false m e l).
Proof.
  unfold binary_round_aux.
  destruct (shr_fexp prec emax m e l) as [mrs' e'].
  destruct (shr_fexp prec emax _ e' loc_Exact) as [mrs'' e''].
  destruct (shr_m mrs'') as [|m'|m']; try reflexivity.
  by destruct (_ <=? _)%Z.
Qed.

Lemma binary_normalize_opp_abs (m e : Z) :
  SFabs (binary_normalize prec emax (- m) e false) =
  SFabs (binary_normalize prec emax m e false).
Proof.
  destruct m as [|m|m]; simpl; [done| |]; unfold binary_round;
    destruct (shl_align _ _ _) as [mz ez]; by rewrite binary_round_aux_abs.
Qed.

Lemma SFsub_swap_abs (x y : spec_float) :
  SFabs (SFsub prec emax x y) = SFabs (SFsub prec emax y x).
Proof.
  destruct x as [sx|sx| |sx mx ex], y as [sy|sy| |sy my ey];
    try reflexivity; try (by destruct sx, sy).
  unfold SFsub. rewrite (Z.min_comm ey ex).
  rewrite <- binary_normalize_opp_abs. f_equal. f_equal. lia.
Qed.

(** A square only depends on the absolute value. *)
Lemma SFmul_square_abs (x y : spec_float) :
  SFabs x = SFabs y -> SFmul prec emax x x = SFmul prec emax y y.
Proof.
  destruct x as [sx|sx| |sx mx ex], y as [sy|sy| |sy my ey];
    simpl; intros H; try discriminate; try reflexivity;
    rewrite ?xorb_nilpotent; try reflexivity.
  by simplify_eq.
Qed.

Lemma float_square_sub_swap (x y : float) :
  (x - y) * (x - y) = (y - x) * (y - x).
Proof.
  apply Prim2SF_inj. rewrite !mul_spec, !sub_spec.
  apply SFmul_square_abs, SFsub_swap_abs.
Qed.

(** A float that is neither NaN nor an infinity is a zero or a finite
    number. *)
Lemma is_finite_inv (x : float) :
  is_finite x = true ->
  (exists s, Prim2SF x = S754_zero s) \/
  (exists s m e, Prim2SF x = S754_finite s m e).
Proof.
  unfold is_finite, is_nan, is_infinity.
  rewrite !FloatAxioms.eqb_spec, abs_spec.
  change (Prim2SF infinity) with (S754_infinity false).
  destruct (Prim2SF x) as [s|s| |s m e]; simpl; eauto.
  - by destruct s.
  - done.
Qed.

Lemma float_sub_diag (x : float) : is_finite x = true -> x - x = 0.
Proof.
  intros H. apply Prim2SF_inj. rewrite sub_spec.
  change (Prim2SF 0) with (S754_zero false).
  destruct (is_finite_inv x H) as [[s ->] | (s & m & e & ->)].
  - by destruct s.
  - unfold SF64sub, SFsub. by rewrite Z.sub_diag.
Qed.

End Binary64Sub.

(** ** Distance and normalization *)

Section DistanceFacts.

Lemma foldl_euclid_swap (l : list (float * float)) (sum : float) :
  foldl euclid_step sum (prod_swap <$> l) = foldl euclid_step sum l.
Proof.
  revert sum. induction l as [|[x y] l IH]; intros sum; [done|].
  simpl. by rewrite IH, (float_square_sub_swap y x).
Qed.

Lemma foldl_euclid_diag (a : list float) :
  finite_vector a -> foldl euclid_step 0 (zip a a) = 0.
Proof.
  induction 1 as [|x a Hx _ IH]; [done|].
  simpl. rewrite (float_sub_diag x Hx).
  change (0 + 0 * 0) with 0. exact IH.
Qed.

Lemma sum_squares_zero (v : list float) : zero_vector v -> sum_squares v = 0.
Proof.
  unfold sum_squares. induction 1 as [|x v Hx _ IH]; [done|].
  simpl. rewrite (float_sq_zero x Hx). change (0 + 0) with 0. exact IH.
Qed.

(** X1: [EuclideanDistance] is symmetric, whatever the vectors hold. *)
Theorem EuclideanDistance_comm (a b : list float) :
  EuclideanDistance a b = EuclideanDistance b a.
Proof.
  unfold EuclideanDistance.
  destruct (Nat.eqb_spec (length a) (length b)) as [Hlen|Hlen].
  - rewrite <- Hlen, Nat.eqb_refl. simpl.
    destruct (length a =? 0)%nat; [done|].
    by rewrite (zip_swap a b), foldl_euclid_swap.
  - destruct (Nat.eqb_spec (length b) (length a)) as [Hlen'|Hlen']; [|done].
    by rewrite Hlen' in Hlen.
Qed.

(** X2: The distance of a vector to itself is [0] when it is not empty and
    holds no NaN and no infinity; that of the empty vector to itself is
    [+Inf], as for any length mismatch. *)
Theorem EuclideanDistance_self (a : list float) :
  finite_vector a ->
  EuclideanDistance a a = if decide (a = []) then infinity else 0.
Proof.
  intros Hfin. unfold EuclideanDistance. rewrite Nat.eqb_refl. simpl.
  destruct a as [|x a]; [done|]. simpl length. cbn [Nat.eqb].
  rewrite (foldl_euclid_diag _ Hfin). by rewrite decide_False.
Qed.

(** X3: [NormalizeVector] keeps the number of components, and gives back a
    vector of zeros (the empty vector too) as it is: it never divides by
    a zero norm. *)
Theorem NormalizeVector_shape (v : list float) :
  length (NormalizeVector v) = length v /\
  (zero_vector v -> NormalizeVector v = v).
Proof.
  unfold NormalizeVector. split.
  - destruct (sqrt (sum_squares v) =? 0); [done|]. by rewrite length_fmap.
  - intros Hz. by rewrite (sum_squares_zero v Hz).
Qed.

End DistanceFacts.

(** ** The cache engine: the other methods and how they compose *)

Section EngineFacts.

Context {Rq Rs : Type}.
Implicit Types (w : @World Rq Rs) (h : gmap ptr (@CacheEntry Rq Rs)).
Implicit Types (e new old : @CacheEntry Rq Rs).
Implicit Types (es pre suf active : list ptr) (p q entry : ptr).

(** *** Similarity zero *)

Lemma CosineSimilarity_pos_inv (a b : list float) :
  (0 <? CosineSimilarity a b) = true ->
  length a = length b /\ a <> [] /\ ~ zero_vector a /\ ~ zero_vector b.
Proof.
  unfold CosineSimilarity.
  destruct (Nat.eqb_spec (length a) (length b)) as [Hlen|Hlen]; [|done].
  destruct (Nat.eqb_spec (length a) 0) as [Ha|Ha]; [done|]. simpl.
  destruct (cos_loop a b) as [[d na] nb] eqn:E. unfold cos_loop in E.
  intros Hpos. split; [done|]. split; [by intros ->|]. split; intros Hz.
  - pose proof (foldl_cos_normA_zero (zip a b) 0 0
                  (Forall_zip_fst _ a b Hz)) as Hn.
    rewrite E in Hn. simpl in Hn. subst na. done.
  - pose proof (foldl_cos_normB_zero (zip a b) 0 0
                  (Forall_zip_snd _ a b Hz)) as Hn.
    rewrite E in Hn. simpl in Hn. subst nb.
    by rewrite orb_true_r in Hpos.
Qed.

Lemma near_duplicate_pos (embedding : list float) e :
  near_duplicate embedding e = true ->
  (0 <? CosineSimilarity embedding (Embedding e)) = true.
Proof.
  unfold near_duplicate. intros H.
  by apply (float_le_lt_trans 0 0.99).
Qed.

Lemma zero_query_similarity (embedding : list float) (b : list float) :
  zero_vector embedding -> CosineSimilarity embedding b = 0.
Proof.
  intros Hz.
  destruct (0 <? CosineSimilarity embedding b) eqn:Hpos.
  { by apply CosineSimilarity_pos_inv in Hpos as (_ & _ & ? & _). }
  unfold CosineSimilarity in *.
  destruct (negb _ || _); [done|].
  destruct (cos_loop embedding b) as [[d na] nb] eqn:E. unfold cos_loop in E.
  pose proof (foldl_cos_normA_zero (zip embedding b) 0 0
                (Forall_zip_fst _ embedding b Hz)) as Hn.
  rewrite E in Hn. simpl in Hn. by subst na.
Qed.

(** *** Removal by swap *)

Lemma remove_swap_elem_of (i : nat) es p :
  p ∈ remove_swap i es -> p ∈ es.
Proof.
  unfold remove_swap. destruct (last es) as [l|] eqn:Hl; [|done].
  intros Hp. apply elem_of_take in Hp as (j & Hj & _).
  destruct (decide (j = i)) as [->|Hne].
  - apply lookup_lt_Some in Hj as Hlt. rewrite length_insert in Hlt.
    rewrite list_lookup_insert_eq in Hj by done. simplify_eq.
    by eapply last_Some_elem_of.
  - rewrite list_lookup_insert_ne in Hj by done.
    by eapply list_elem_of_lookup_2.
Qed.

Lemma remove_swap_length_le (i : nat) es :
  (length (remove_swap i es) <= length es)%nat.
Proof.
  unfold remove_swap. destruct (last es); [|done].
  rewrite length_take, length_insert. lia.
Qed.

Lemma evictOldest_length h es es1 :
  evictOldest h es = Some es1 -> length es1 = (length es - 1)%nat.
Proof.
  unfold evictOldest. destruct es as [|p0 es0] eqn:E.
  { by intros [= <-]. }
  rewrite <- E. destruct (h !! p0); [|done]. cbn [mbind option_bind].
  destruct (oldest_scan _ _ _ _ _) as [[k t]|]; [|done].
  cbn [mbind option_bind]. intros [= <-].
  apply remove_swap_length. by rewrite E.
Qed.

Lemma with_entries_id w : with_entries (entries (mc w)) w = w.
Proof. by destruct w as [h [es o hi mi] pe]. Qed.

(** *** Delete *)

(** X6: [Delete] removes one entry at most: the first stored entry, in scan
    order, whose similarity to [embedding] is above 0.99, by moving
    the last entry into its slot; every other entry stays.  When no
    stored entry is that similar, nothing changes. *)
Theorem Delete_spec w (embedding : list float) :
  wf w ->
  (exists (i : nat) victim,
     stored w i = Some victim /\
     near_duplicate embedding victim = true /\
     (forall (j : nat) e, (j < i)%nat -> stored w j = Some e ->
        near_duplicate embedding e = false) /\
     Delete embedding w =
       Some (with_entries (remove_swap i (entries (mc w))) w) /\
     remove_swap i (entries (mc w)) ≡ₚ delete i (entries (mc w)) /\
     length (remove_swap i (entries (mc w))) =
       (length (entries (mc w)) - 1)%nat) \/
  ((forall (j : nat) e, stored w j = Some e ->
      near_duplicate embedding e = false) /\
   Delete embedding w = Some w).
Proof.
  intros Hwf. unfold Delete.
  destruct (find_duplicate_spec (heap w) embedding _ 0 Hwf)
    as [(k & p & e1 & Hfind & Hk & Hp & Hd & Hbefore) | [Hfind Hnone]].
  - left. exists k, e1. rewrite Hfind. cbn [mbind option_bind].
    repeat split; try done.
    + apply stored_Some. eauto.
    + intros j e Hj Hst. apply stored_Some in Hst as (q & Hq & He).
      by apply (Hbefore j q e).
    + by apply (remove_swap_Permutation k _ p).
    + apply remove_swap_length. intros Hnil. by rewrite Hnil in Hk.
  - right. rewrite Hfind. split; [|done].
    intros j e Hst. apply stored_Some in Hst as (q & Hq & He).
    by apply (Hnone j q e).
Qed.

(** *** Set, then the other methods *)

(** Where [Set] puts an entry whose embedding is a near-duplicate of
    itself: at an index [i] before which no stored entry is a
    near-duplicate of it. *)
Lemma Set_slot w entry new :
  wf w -> heap w !! entry = Some new ->
  near_duplicate (Embedding new) new = true ->
  exists w1 (i : nat),
    Set_ entry w = Some w1 /\ wf w1 /\ heap w1 = heap w /\
    pending w1 = pending w /\
    entries (mc w1) !! i = Some entry /\
    (forall (j : nat) e, (j < i)%nat -> stored w1 j = Some e ->
       near_duplicate (Embedding new) e = false).
Proof.
  intros Hwf Hnew Hself.
  destruct (find_duplicate_spec (heap w) (Embedding new) _ 0 Hwf)
    as [(k & p & e1 & _ & Hk & Hp & Hd & _) | [_ Hnone]].
  - destruct (Set_near_duplicate w entry new Hwf Hnew)
      as (i & old & Hold & _ & Hfirst & HSet).
    { exists k, e1. split; [|done]. apply stored_Some. eauto. }
    apply stored_Some in Hold as (po & Hpo & _).
    apply lookup_lt_Some in Hpo as Hlt.
    eexists _, i. split; [exact HSet|]. simpl.
    split; [|split; [done|split; [done|split]]].
    + unfold wf. simpl. apply Forall_insert; [done|]. by eexists.
    + by rewrite list_lookup_insert_eq.
    + intros j e Hj Hst. apply (Hfirst j e Hj).
      unfold stored in *. simpl in Hst.
      rewrite list_lookup_insert_ne in Hst by lia. done.
  - assert (Hnone' : forall (j : nat) e, stored w j = Some e ->
              near_duplicate (Embedding new) e = false).
    { intros j e Hst. apply stored_Some in Hst as (q & Hq & He).
      by apply (Hnone j q e). }
    rewrite (Set_fresh w entry new Hwf Hnew Hnone').
    assert (Hes1 : exists es1,
      (if (MaxSize (opts (mc w)) <=? Z.of_nat (length (entries (mc w))))%Z
       then evictOldest (heap w) (entries (mc w))
       else Some (entries (mc w))) = Some es1 /\
      forall q, q ∈ es1 -> q ∈ entries (mc w)).
    { destruct (_ <=? _)%Z; [|by eauto].
      destruct (entries (mc w)) as [|p0 es0] eqn:E; [by eexists|].
      rewrite <- E in *.
      destruct (evictOldest_spec (heap w) (entries (mc w)) Hwf)
        as (k & pk & victim & Hev & _); [by rewrite E|].
      eexists. split; [exact Hev|]. intros q. apply remove_swap_elem_of. }
    destruct Hes1 as (es1 & -> & Hsub). cbn [mbind option_bind].
    eexists _, (length es1). split; [reflexivity|]. simpl.
    split; [|split; [done|split; [done|split]]].
    + unfold wf. simpl. apply Forall_app. split.
      * apply Forall_forall. intros q Hq.
        eapply Forall_forall in Hwf; [done|]. by apply Hsub.
      * apply Forall_singleton. by eexists.
    + by rewrite list_lookup_middle.
    + intros j e Hj Hst. apply stored_Some in Hst as (q & Hq & He).
      simpl in Hq, He. rewrite lookup_app_l in Hq by done.
      apply list_elem_of_lookup_2, Hsub, list_elem_of_lookup in Hq as [j' Hj'].
      by apply (Hnone j' q e).
Qed.

(** The first near-duplicate of the embedding of [new] in a cache where
    [new] sits at index [i] and no near-duplicate comes before. *)
Lemma find_duplicate_at w entry new (i : nat) :
  wf w -> heap w !! entry = Some new ->
  near_duplicate (Embedding new) new = true ->
  entries (mc w) !! i = Some entry ->
  (forall (j : nat) e, (j < i)%nat -> stored w j = Some e ->
     near_duplicate (Embedding new) e = false) ->
  find_duplicate (heap w) (Embedding new) (entries (mc w)) 0 = Some (Some i).
Proof.
  intros Hwf Hnew Hself Hi Hbefore.
  destruct (find_duplicate_spec (heap w) (Embedding new) _ 0 Hwf)
    as [(k & p & e1 & Hfind & Hk & Hp & Hd & Hfirst) | [_ Hnone]].
  - rewrite Hfind. do 2 f_equal. simpl.
    destruct (lt_eq_lt_dec k i) as [[Hlt| ->]|Hgt]; [|done|].
    + rewrite (Hbefore k e1 Hlt) in Hd; [done|]. apply stored_Some. eauto.
    + by rewrite (Hfirst i entry new Hgt Hi Hnew) in Hself.
  - by rewrite (Hnone i entry new Hi Hnew) in Hself.
Qed.

(** X7: Storing an entry and then deleting by its embedding removes that
    very entry (given that the embedding is a near-duplicate of itself,
    as the embedding of a text is). *)
Theorem Set_then_Delete w entry new :
  wf w -> heap w !! entry = Some new ->
  near_duplicate (Embedding new) new = true ->
  exists w1 w2 (i : nat),
    Set_ entry w = Some w1 /\
    entries (mc w1) !! i = Some entry /\
    Delete (Embedding new) w1 = Some w2 /\
    entries (mc w2) = remove_swap i (entries (mc w1)) /\
    entries (mc w2) ≡ₚ delete i (entries (mc w1)) /\
    Size w2 = (Size w1 - 1)%Z.
Proof.
  intros Hwf Hnew Hself.
  destruct (Set_slot w entry new Hwf Hnew Hself)
    as (w1 & i & HSet & Hwf1 & Hheap & _ & Hi & Hbefore).
  rewrite <- Hheap in Hnew.
  exists w1, (with_entries (remove_swap i (entries (mc w1))) w1), i.
  split; [done|]. split; [done|]. split.
  { unfold Delete.
    by rewrite (find_duplicate_at w1 entry new i Hwf1 Hnew Hself Hi Hbefore). }
  simpl. split; [done|]. split.
  - by apply (remove_swap_Permutation i _ entry).
  - unfold Size. simpl. rewrite remove_swap_length.
    + apply lookup_lt_Some in Hi. lia.
    + intros Hnil. by rewrite Hnil in Hi.
Qed.

(** X8: Storing the same entry a second time changes nothing. *)
Theorem Set_idempotent w entry new :
  wf w -> heap w !! entry = Some new ->
  near_duplicate (Embedding new) new = true ->
  exists w1, Set_ entry w = Some w1 /\ Set_ entry w1 = Some w1.
Proof.
  intros Hwf Hnew Hself.
  destruct (Set_slot w entry new Hwf Hnew Hself)
    as (w1 & i & HSet & Hwf1 & Hheap & _ & Hi & Hbefore).
  rewrite <- Hheap in Hnew.
  exists w1. split; [done|].
  pose proof (find_duplicate_at w1 entry new i Hwf1 Hnew Hself Hi Hbefore)
    as Hfind.
  unfold Set_. destruct (entries (mc w1)) as [|p0 es0] eqn:E; [done|].
  cbv iota zeta. rewrite Hnew. cbn [mbind option_bind]. rewrite <- E in *.
  rewrite Hfind. cbn [mbind option_bind].
  by rewrite list_insert_id, with_entries_id.
Qed.

(** X9: After an entry is stored, a lookup with its embedding, at a time
    when it has not expired and with a threshold its similarity to
    itself meets, finds an entry (the stored one or one at least as
    similar) that is a near-duplicate of the query. *)
Theorem Set_then_Get w entry new (now : Time) (threshold : float) :
  wf w -> heap w !! entry = Some new ->
  near_duplicate (Embedding new) new = true ->
  live now new ->
  (threshold <=? CosineSimilarity (Embedding new) (Embedding new)) = true ->
  exists w1 w2 p e,
    Set_ entry w = Some w1 /\
    Get now (Embedding new) threshold w1 =
      Some (w2, (Some p, CosineSimilarity (Embedding new) (Embedding e), true)) /\
    p ∈ entries (mc w1) /\ heap w1 !! p = Some e /\ live now e /\
    (CosineSimilarity (Embedding new) (Embedding new)
       <=? CosineSimilarity (Embedding new) (Embedding e)) = true /\
    near_duplicate (Embedding new) e = true.
Proof.
  intros Hwf Hnew Hself Hlive Hthr.
  destruct (Set_slot w entry new Hwf Hnew Hself)
    as (w1 & i & HSet & Hwf1 & Hheap & _ & Hi & _).
  rewrite <- Hheap in Hnew.
  destruct (Get_scan w1 now (Embedding new) threshold Hwf1)
    as (best & bs & Hscan & H0 & Hmax & Hbest).
  pose proof (Hmax i entry new Hi Hnew Hlive Hthr) as Hle.
  pose proof (near_duplicate_pos _ _ Hself) as Hpos.
  destruct best as [p|].
  - destruct Hbest as (k & e & Hk & He & Hlive' & -> & _).
    exists w1. eexists _, p, e. split; [done|].
    unfold Get. rewrite Hscan. cbn [mbind option_bind].
    split; [reflexivity|].
    split; [by eapply list_elem_of_lookup_2|].
    repeat split; try done.
    unfold near_duplicate in *. by eapply float_lt_le_trans.
  - subst bs. by rewrite (float_le_not_lt _ _ Hle) in Hpos.
Qed.

(** The three ways of [Set]: overwrite a slot, append, or evict and
    append. *)
Lemma Set_cases w entry :
  wf w -> is_Some (heap w !! entry) ->
  exists es',
    Set_ entry w = Some (with_entries es' w) /\
    ((exists i : nat, (i < length (entries (mc w)))%nat /\
        es' = <[i := entry]> (entries (mc w))) \/
     (exists es1, es' = es1 ++ [entry] /\
        (es1 = entries (mc w) \/
         (entries (mc w) <> [] /\
          exists k : nat, es1 = remove_swap k (entries (mc w)))))).
Proof.
  intros Hwf [new Hnew].
  destruct (find_duplicate_spec (heap w) (Embedding new) _ 0 Hwf)
    as [(k & p & e1 & _ & Hk & Hp & Hd & _) | [_ Hnone]].
  - destruct (Set_near_duplicate w entry new Hwf Hnew)
      as (i & old & Hold & _ & _ & HSet).
    { exists k, e1. split; [|done]. apply stored_Some. eauto. }
    eexists. split; [exact HSet|]. left. exists i. split; [|done].
    apply stored_Some in Hold as (po & Hpo & _). by eapply lookup_lt_Some.
  - rewrite (Set_fresh w entry new Hwf Hnew).
    2:{ intros j e Hst. apply stored_Some in Hst as (q & Hq & He).
        by apply (Hnone j q e). }
    destruct (_ <=? _)%Z.
    + destruct (entries (mc w)) as [|p0 es0] eqn:E.
      { eexists. split; [reflexivity|]. right. exists []. split; [done|].
        by left. }
      rewrite <- E in *.
      destruct (evictOldest_spec (heap w) (entries (mc w)) Hwf)
        as (k & pk & victim & -> & _); [by rewrite E|].
      eexists. split; [reflexivity|]. right. eexists. split; [done|].
      right. split; [by rewrite E|]. by exists k.
    + eexists. split; [reflexivity|]. right. eexists. split; [done|].
      by left.
Qed.

(** X10: [Set] never refuses an entry: it succeeds, the entry is stored
    afterwards, nothing else is added, the entries themselves are not
    touched, and the size stays or grows by one. *)
Theorem Set_stores w entry :
  wf w -> is_Some (heap w !! entry) ->
  exists w',
    Set_ entry w = Some w' /\
    entry ∈ entries (mc w') /\
    (forall p, p ∈ entries (mc w') -> p = entry \/ p ∈ entries (mc w)) /\
    heap w' = heap w /\
    (Size w <= Size w' <= Size w + 1)%Z.
Proof.
  intros Hwf Halloc.
  destruct (Set_cases w entry Hwf Halloc) as (es' & HSet & Hcases).
  eexists. split; [exact HSet|]. unfold Size. simpl.
  destruct Hcases as [(i & Hi & ->) | (es1 & -> & Hes1)].
  - split; [|split; [|split; [done|]]].
    + eapply list_elem_of_lookup_2. by apply list_lookup_insert_eq.
    + intros p Hp. apply list_elem_of_lookup in Hp as [j Hj].
      destruct (decide (j = i)) as [->|Hne].
      * rewrite list_lookup_insert_eq in Hj by done. left. congruence.
      * rewrite list_lookup_insert_ne in Hj by done. right.
        by eapply list_elem_of_lookup_2.
    + rewrite length_insert. lia.
  - split; [|split; [|split; [done|]]].
    + apply elem_of_app. right. by apply list_elem_of_singleton.
    + intros p Hp. apply elem_of_app in Hp as [Hp|Hp].
      * right. destruct Hes1 as [-> | (_ & k & ->)]; [done|].
        by eapply remove_swap_elem_of.
      * left. by apply list_elem_of_singleton in Hp.
    + rewrite length_app. simpl.
      destruct Hes1 as [-> | (Hne & k & ->)]; [lia|].
      rewrite remove_swap_length by done.
      destruct (entries (mc w)); [done|]. simpl. lia.
Qed.

(** X11: Eviction among entries that are equally old: when no stored entry
    has an earlier last-hit time than the one in slot 0 (so when none
    was ever hit), [Set] at capacity evicts slot 0 and moves the last
    entry, the one stored most recently, into it.  The next eviction
    then takes that entry: the entries in the middle stay, however old
    they are. *)
Theorem Set_evicts_slot_0 w entry new pa pb (mid : list ptr) a :
  wf w -> heap w !! entry = Some new ->
  (forall (j : nat) e, stored w j = Some e ->
     near_duplicate (Embedding new) e = false) ->
  entries (mc w) = pa :: mid ++ [pb] ->
  (MaxSize (opts (mc w)) <= Size w)%Z ->
  heap w !! pa = Some a ->
  (forall (j : nat) e, stored w j = Some e -> (LastHitAt a <= LastHitAt e)%Z) ->
  Set_ entry w = Some (with_entries (pb :: mid ++ [entry]) w).
Proof.
  intros Hwf Hnew Hnone Hes Hfull Ha Hmin.
  destruct (Set_evicts w entry new Hwf Hnew Hnone)
    as (k & victim & -> & Hk & Hle & Hlt); [by rewrite Hes|done|].
  assert (k = 0%nat) as ->.
  { destruct k as [|k]; [done|].
    assert (H0 : stored w 0 = Some a).
    { unfold stored. rewrite Hes. simpl. done. }
    pose proof (Hlt 0%nat a ltac:(lia) H0).
    pose proof (Hmin (S k) victim Hk). lia. }
  do 2 f_equal. rewrite Hes. unfold remove_swap.
  change (pa :: mid ++ [pb]) with ((pa :: mid) ++ [pb]).
  rewrite last_snoc, length_app. simpl.
  replace (length mid + 1 - 0)%nat with (S (length mid)) by lia.
  simpl. by rewrite take_app_length.
Qed.

(** *** What Get can return *)

(** X4: Whatever the threshold (a negative one too), an entry that [Get]
    returns is stored, has not expired, and has a similarity above [0]:
    so its embedding has the dimension of the query, and neither is
    empty or a vector of zeros. *)
Theorem Get_result_well_formed w now (embedding : list float)
    (threshold : float) w' p (s : float) :
  wf w ->
  Get now embedding threshold w = Some (w', (Some p, s, true)) ->
  exists e,
    p ∈ entries (mc w) /\ heap w !! p = Some e /\ live now e /\
    s = CosineSimilarity embedding (Embedding e) /\
    (threshold <=? s) = true /\ (0 <? s) = true /\
    length (Embedding e) = length embedding /\ embedding <> [] /\
    ~ zero_vector embedding /\ ~ zero_vector (Embedding e).
Proof.
  intros Hwf HGet.
  destruct (Get_scan w now embedding threshold Hwf)
    as (best & bs & Hscan & _ & _ & Hbest).
  unfold Get in HGet. rewrite Hscan in HGet. cbn [mbind option_bind] in HGet.
  destruct best as [pb|]; [|done]. simplify_eq.
  destruct Hbest as (i & e & Hi & He & Hlive & -> & Hthr & Hpos & _).
  destruct (CosineSimilarity_pos_inv _ _ Hpos) as (Hlen & Hne & Hza & Hzb).
  exists e. repeat split; try done.
  by eapply list_elem_of_lookup_2.
Qed.

(** X5: A query that is empty or a vector of zeros selects nothing: [Get]
    misses at every threshold, [Delete] removes nothing, and [Set] of an
    entry with such an embedding never updates in place but appends
    the entry, also when that very entry is stored already. *)
Theorem zero_embedding_inert w (embedding : list float) :
  wf w -> zero_vector embedding ->
  (forall now (threshold : float),
     snd <$> Get now embedding threshold w = Some (None, 0, false)) /\
  Delete embedding w = Some w /\
  (forall entry new,
     heap w !! entry = Some new -> Embedding new = embedding ->
     exists es1,
       Set_ entry w = Some (with_entries (es1 ++ [entry]) w) /\
       (es1 = entries (mc w) \/
        exists k : nat, es1 = remove_swap k (entries (mc w)))).
Proof.
  intros Hwf Hz.
  assert (Hnodup : forall (j : nat) e, stored w j = Some e ->
            near_duplicate embedding e = false).
  { intros j e _. unfold near_duplicate.
    by rewrite (zero_query_similarity _ _ Hz). }
  split; [|split].
  - intros now threshold.
    destruct (Get_scan w now embedding threshold Hwf)
      as (best & bs & Hscan & _ & _ & Hbest).
    unfold Get. rewrite Hscan. cbn [mbind option_bind].
    destruct best as [pb|]; [|done].
    destruct Hbest as (i & e & _ & _ & _ & -> & _ & Hpos & _).
    by rewrite (zero_query_similarity _ _ Hz) in Hpos.
  - unfold Delete.
    destruct (find_duplicate_spec (heap w) embedding _ 0 Hwf)
      as [(k & p & e1 & _ & Hk & Hp & Hd & _) | [-> _]]; [|done].
    rewrite (Hnodup k e1) in Hd; [done|]. apply stored_Some. eauto.
  - intros entry new Hnew <-.
    rewrite (Set_fresh w entry new Hwf Hnew Hnodup).
    destruct (_ <=? _)%Z.
    + destruct (entries (mc w)) as [|p0 es0] eqn:E.
      { exists []. split; [done|]. by left. }
      rewrite <- E in *.
      destruct (evictOldest_spec (heap w) (entries (mc w)) Hwf)
        as (k & pk & victim & -> & _); [by rewrite E|].
      eexists. split; [reflexivity|]. right. by exists k.
    + eexists. split; [reflexivity|]. by left.
Qed.

(** *** Cleanup and later lookups *)



(** X13: The two expiry tests differ at the instant of expiry: an entry
    whose [ExpiresAt] is [now] is still live for a [Get] at [now],
    and is removed by a [Cleanup] at [now]. *)
Theorem expiry_instant w (now : Time) p e :
  wf w -> p ∈ entries (mc w) -> heap w !! p = Some e ->
  ExpiresAt e = now ->
  live now e /\
  exists w1 (removed : Z),
    Cleanup now w = Some (w1, removed) /\ (p ∉ entries (mc w1)) /\
    (1 <= removed)%Z.
Proof.
  intros Hwf Hp He Hexp. split.
  { unfold live, After. rewrite Hexp. apply Z.ltb_irrefl. }
  unfold Cleanup.
  rewrite (cleanup_scan_filter _ _ _ _ _ Hwf). cbn [mbind option_bind].
  eexists _, _. split; [reflexivity|]. simpl.
  assert (Hdead : expired (heap w) now p = true).
  { apply (expired_spec _ _ _ e He). lia. }
  split.
  - rewrite list_elem_of_filter. intros [Hkeep _]. congruence.
  - assert (Hin : p ∈ filter (fun p => expired (heap w) now p = true)
                             (entries (mc w)))
      by by apply list_elem_of_filter.
    destruct (filter _ _) as [|? ?]; [by apply elem_of_nil in Hin|].
    simpl. lia.
Qed.

(** *** Clear *)

(** X14: [Clear] empties the cache and zeroes the counters: the size is [0],
    the statistics are all [0] (the hit rate too: no division by
    zero), every lookup misses.  The entries themselves and the pending
    goroutines are left as they are. *)
Theorem Clear_resets w :
  Size (Clear w) = 0%Z /\
  Stats (Clear w) =
    {| TotalEntries := 0; TotalHits := 0; TotalMisses := 0;
       HitRate := 0; AvgSimilarity := 0; EstimatedSaved := 0 |} /\
  (forall now (embedding : list float) (threshold : float),
     snd <$> Get now embedding threshold (Clear w) = Some (None, 0, false)) /\
  heap (Clear w) = heap w /\ pending (Clear w) = pending w /\
  opts (mc (Clear w)) = opts (mc w).
Proof. repeat split. Qed.

(** *** No failed dereference *)

Lemma Forall_remove_swap (P : ptr -> Prop) (i : nat) es :
  Forall P es -> Forall P (remove_swap i es).
Proof.
  intros H. apply Forall_forall. intros p Hp.
  eapply Forall_forall in H; [done|]. by eapply remove_swap_elem_of.
Qed.

Lemma Set_safe w entry :
  wf w -> is_Some (heap w !! entry) ->
  exists es', Set_ entry w = Some (with_entries es' w) /\
              Forall (fun p => is_Some (heap w !! p)) es'.
Proof.
  intros Hwf [new Hnew].
  destruct (find_duplicate_spec (heap w) (Embedding new) _ 0 Hwf)
    as [(k & p & e1 & _ & Hk & Hp & Hd & _) | [_ Hnone]].
  - destruct (Set_near_duplicate w entry new Hwf Hnew)
      as (i & old & _ & _ & _ & HSet).
    { exists k, e1. split; [|done]. apply stored_Some. eauto. }
    eexists. split; [exact HSet|]. apply Forall_insert; [done|]. by eexists.
  - rewrite (Set_fresh w entry new Hwf Hnew).
    2:{ intros j e Hst. apply stored_Some in Hst as (q & Hq & He).
        by apply (Hnone j q e). }
    destruct (_ <=? _)%Z.
    + destruct (entries (mc w)) as [|p0 es0] eqn:E.
      { eexists. split; [reflexivity|]. apply Forall_singleton. by eexists. }
      rewrite <- E in *.
      destruct (evictOldest_spec (heap w) (entries (mc w)) Hwf)
        as (k & pk & victim & -> & _); [by rewrite E|].
      eexists. split; [reflexivity|]. apply Forall_app. split.
      * by apply Forall_remove_swap.
      * apply Forall_singleton. by eexists.
    + eexists. split; [reflexivity|]. apply Forall_app. split; [done|].
      apply Forall_singleton. by eexists.
Qed.

(** X15: No method call and no goroutine dereferences a nil pointer, as long
    as [Set] is only given pointers to entries: from a state where the
    stored pointers and those held by pending goroutines point to
    entries, every step succeeds and leads to such a state again, with
    the same entries allocated and the same options. *)
Theorem exec_safe (ev : Event) w :
  safe w -> admissible ev w ->
  exists w', exec ev w = Some w' /\ safe w' /\
             dom (heap w') = dom (heap w) /\
             opts (mc w') = opts (mc w).
Proof.
  intros [Hwf Hpend] Hadm. destruct ev as [now emb thr|entry|emb| |now|k now];
    simpl in Hadm |- *.
  - destruct (Get_scan w now emb thr Hwf) as (best & bs & Hscan & _ & _ & Hbest).
    unfold Get. rewrite Hscan. cbn [mbind option_bind].
    destruct best as [p|]; simpl; eexists; (split; [reflexivity|]);
      (split; [|done]); split; try done. simpl.
    apply Forall_app. split; [done|]. apply Forall_singleton.
    destruct Hbest as (i & e & _ & He & _). by eexists.
  - destruct (Set_safe w entry Hwf Hadm) as (es' & -> & Hes').
    eexists. split; [reflexivity|]. by repeat split.
  - unfold Delete.
    destruct (find_duplicate_spec (heap w) emb _ 0 Hwf)
      as [(i & p & e1 & -> & _) | [-> _]]; cbn [mbind option_bind];
      eexists; (split; [reflexivity|]); repeat split; try done.
    by apply Forall_remove_swap.
  - eexists. split; [reflexivity|]. repeat split; try done. constructor.
  - unfold Cleanup. rewrite (cleanup_scan_filter _ _ _ _ _ Hwf).
    simpl. eexists. split; [reflexivity|]. repeat split; try done.
    unfold wf. simpl. apply Forall_forall. intros p Hp.
    apply list_elem_of_filter in Hp as [_ Hp].
    eapply Forall_forall in Hwf; done.
  - apply lookup_lt_is_Some in Hadm as [p Hp]. rewrite Hp.
    cbn [mbind option_bind]. unfold updateHitStats.
    assert (Halloc : is_Some (heap w !! p)).
    { eapply Forall_forall in Hpend; [done|]. by eapply list_elem_of_lookup_2. }
    destruct Halloc as [e He]. rewrite He. cbn [mbind option_bind].
    eexists. split; [reflexivity|]. simpl.
    assert (Hkeep : forall (x : @CacheEntry Rq Rs) (l : list ptr),
              Forall (fun q => is_Some (heap w !! q)) l ->
              Forall (fun q => is_Some (<[p:=x]> (heap w) !! q)) l).
    { intros x l Hl. eapply Forall_impl; [exact Hl|].
      intros q Hq. simpl. rewrite lookup_insert_is_Some.
      destruct (decide (p = q)); auto. }
    repeat split.
    + by apply Hkeep.
    + by apply Forall_delete, Hkeep.
    + by apply dom_insert_lookup_L.
Qed.

(** *** The capacity bound *)

Lemma cleanup_scan_length h (now : Time) es active (removed : Z)
    active' (removed' : Z) :
  cleanup_scan h now es active removed = Some (active', removed') ->
  (length active' <= length active + length es)%nat.
Proof.
  revert active removed.
  induction es as [|p es IH]; intros active removed; simpl.
  { intros [= <- <-]. lia. }
  destruct (h !! p) as [e|]; [|done]. cbn [mbind option_bind].
  destruct (Before now (ExpiresAt e)); intros H; apply IH in H;
    rewrite ?length_app in H; simpl in H; lia.
Qed.

Lemma exec_capacity (ev : Event) w w' :
  exec ev w = Some w' ->
  opts (mc w') = opts (mc w) /\
  ((Size w <= Z.max 1 (MaxSize (opts (mc w))))%Z ->
   (Size w' <= Z.max 1 (MaxSize (opts (mc w))))%Z).
Proof.
  unfold Size.
  destruct ev as [now emb thr|entry|emb| |now|k now]; simpl.
  - unfold Get. destruct (get_scan _ _ _ _ _ _ _) as [[[p|] bs]|]; [| |done];
      cbn [mbind option_bind fmap option_fmap option_map]; by intros [= <-].
  - unfold Set_.
    destruct (match entries (mc w) with [] => _ | _ :: _ => _ end)
      as [[i|]|]; [| |done]; cbn [mbind option_bind].
    + intros [= <-]. simpl. by rewrite length_insert.
    + destruct (Z.leb_spec (MaxSize (opts (mc w)))
                  (Z.of_nat (length (entries (mc w))))) as [Hfull|Hroom].
      * destruct (evictOldest _ _) as [es1|] eqn:Hev; [|done].
        cbn [mbind option_bind]. intros [= <-]. simpl. split; [done|].
        apply evictOldest_length in Hev. rewrite length_app. simpl. lia.
      * cbn [mbind option_bind]. intros [= <-]. simpl. split; [done|].
        rewrite length_app. simpl. lia.
  - unfold Delete. destruct (find_duplicate _ _ _ _) as [[i|]|]; [| |done];
      cbn [mbind option_bind]; intros [= <-]; [|done]. simpl. split; [done|].
    pose proof (remove_swap_length_le i (entries (mc w))). lia.
  - intros [= <-]. simpl. split; [done|]. lia.
  - unfold Cleanup.
    destruct (cleanup_scan _ _ _ _ _) as [[active removed]|] eqn:Hc; [|done].
    cbn [mbind option_bind fmap option_fmap option_map]. intros [= <-]. simpl.
    split; [done|]. apply cleanup_scan_length in Hc. simpl in Hc. lia.
  - destruct (pending w !! k) as [p|]; [|done]. cbn [mbind option_bind].
    unfold updateHitStats. destruct (heap w !! p) as [e|]; [|done].
    cbn [mbind option_bind]. by intros [= <-].
Qed.

(** X16: The cache never holds more than [MaxSize] entries (one entry when
    [MaxSize] is below one), whatever calls and goroutines are
    interleaved: the bound, once true, stays true, and the options
    never change. *)
Theorem run_capacity (evs : list Event) w w' :
  run evs w = Some w' ->
  (Size w <= Z.max 1 (MaxSize (opts (mc w))))%Z ->
  opts (mc w') = opts (mc w) /\
  (Size w' <= Z.max 1 (MaxSize (opts (mc w))))%Z.
Proof.
  revert w. induction evs as [|ev evs IH]; intros w; simpl.
  { by intros [= <-]. }
  destruct (exec ev w) as [w1|] eqn:Hex; [|done]. cbn [mbind option_bind].
  intros Hrun Hsize. destruct (exec_capacity ev w w1 Hex) as [Ho Hs].
  destruct (IH w1 Hrun) as [Ho' Hs'].
  { rewrite Ho. by apply Hs. }
  rewrite Ho in Ho', Hs'. done.
Qed.

(** *** The counters *)

Lemma int64_small (z : Z) :
  (- 2 ^ 63 <= z < 2 ^ 63)%Z -> int64 z = z.
Proof. intros H. unfold int64. rewrite Z.mod_small; lia. Qed.

Lemma exec_counters (ev : Event) w w' :
  exec ev w = Some w' -> is_clear ev = false ->
  (0 <= hits (mc w))%Z -> (0 <= misses (mc w))%Z ->
  (hits (mc w) + misses (mc w) + (if is_get ev then 1 else 0) < 2 ^ 63)%Z ->
  (0 <= hits (mc w'))%Z /\ (0 <= misses (mc w'))%Z /\
  (hits (mc w') + misses (mc w') =
   hits (mc w) + misses (mc w) + if is_get ev then 1 else 0)%Z.
Proof.
  destruct ev as [now emb thr|entry|emb| |now|k now]; simpl;
    intros Hex Hcl Hh Hm Hb; try done.
  - unfold Get in Hex.
    destruct (get_scan _ _ _ _ _ _ _) as [[[p|] bs]|]; [| |done];
      cbn [mbind option_bind fmap option_fmap option_map] in Hex;
      simplify_eq; simpl; rewrite int64_small by lia; lia.
  - unfold Set_ in Hex.
    destruct (match entries (mc w) with [] => _ | _ :: _ => _ end)
      as [[i|]|]; [| |done]; cbn [mbind option_bind] in Hex.
    + simplify_eq. simpl. lia.
    + destruct (MaxSize _ <=? _)%Z;
        [destruct (evictOldest _ _) as [es1|]; [|done]|];
        cbn [mbind option_bind] in Hex; simplify_eq; simpl; lia.
  - unfold Delete in Hex. destruct (find_duplicate _ _ _ _) as [[i|]|]; [| |done];
      cbn [mbind option_bind] in Hex; simplify_eq; simpl; lia.
  - unfold Cleanup in Hex.
    destruct (cleanup_scan _ _ _ _ _) as [[active removed]|]; [|done].
    cbn [mbind option_bind fmap option_fmap option_map] in Hex.
    simplify_eq. simpl. lia.
  - destruct (pending w !! k) as [p|]; [|done]. cbn [mbind option_bind] in Hex.
    unfold updateHitStats in Hex. destruct (heap w !! p) as [e|]; [|done].
    cbn [mbind option_bind] in Hex. simplify_eq. simpl. lia.
Qed.

Lemma run_counters (evs : list Event) w w' :
  run evs w = Some w' -> Forall (fun ev => is_clear ev = false) evs ->
  (0 <= hits (mc w))%Z -> (0 <= misses (mc w))%Z ->
  (hits (mc w) + misses (mc w) + Z.of_nat (length (filter is_get evs))
     < 2 ^ 63)%Z ->
  (0 <= hits (mc w'))%Z /\ (0 <= misses (mc w'))%Z /\
  (hits (mc w') + misses (mc w') =
   hits (mc w) + misses (mc w) + Z.of_nat (length (filter is_get evs)))%Z.
Proof.
  revert w. induction evs as [|ev evs IH]; intros w; simpl.
  { intros [= <-] _ Hh Hm _. change (filter is_get []) with (@nil Event).
    simpl. lia. }
  destruct (exec ev w) as [w1|] eqn:Hex; [|done]. cbn [mbind option_bind].
  intros Hrun Hcl Hh Hm Hb. inversion Hcl as [|? ? Hc Hcl']; subst.
  assert (Hlen : Z.of_nat (length (filter is_get (ev :: evs))) =
                 ((if is_get ev then 1 else 0) +
                  Z.of_nat (length (filter is_get evs)))%Z).
  { rewrite filter_cons. destruct (is_get ev) eqn:Hg.
    - rewrite decide_True by done. simpl length. lia.
    - rewrite decide_False by (by intros ?). lia. }
  rewrite Hlen in Hb |- *.
  destruct (exec_counters ev w w1 Hex Hc Hh Hm) as (Hh1 & Hm1 & Hsum); [lia|].
  destruct (IH w1 Hrun Hcl' Hh1 Hm1) as (Hh2 & Hm2 & Hsum2).
  { rewrite Hsum. lia. }
  repeat split; try done. rewrite Hsum2, Hsum. lia.
Qed.

(** X17: The statistics count the lookups: after any interleaving of calls
    and goroutines on a cache just built, without a [Clear], the hits
    and the misses reported by [Stats] add up to the number of [Get]
    calls (fewer than 2^63 of them), and [TotalEntries] is [Size]. *)
Theorem Stats_counts_lookups (o : option Options)
    (h : gmap ptr (@CacheEntry Rq Rs)) (evs : list Event) w :
  run evs {| heap := h; mc := NewMemoryCache o; pending := [] |} = Some w ->
  Forall (fun ev => is_clear ev = false) evs ->
  (Z.of_nat (length (filter is_get evs)) < 2 ^ 63)%Z ->
  (TotalHits (Stats w) + TotalMisses (Stats w) =
   Z.of_nat (length (filter is_get evs)))%Z /\
  (0 <= TotalHits (Stats w))%Z /\ (0 <= TotalMisses (Stats w))%Z /\
  TotalEntries (Stats w) = Size w.
Proof.
  intros Hrun Hcl Hb.
  destruct (run_counters evs _ w Hrun Hcl) as (Hh & Hm & Hsum);
    simpl; try lia.
  simpl in Hsum. unfold Stats. simpl. repeat split; try done; lia.
Qed.

End EngineFacts.

(** ** The embedder *)

Section EmbedderFacts.

Import Ollama.

Context {Net Request Response : Type}.
Context (marshal : string -> string -> string + string).
Context (new_request : string -> string -> string + Request).
Context (client_do : Request -> Net -> Net * (string + Response)).
Context (read_all : Response -> Net -> Net * (string + string)).
Context (status_code : Response -> Z).
Context (unmarshal : string -> string + list float).
Context (body_close : Response -> Net -> Net).

Local Abbreviation Embed :=
  (Embed marshal new_request client_do read_all status_code unmarshal
         body_close).
Local Abbreviation embed_loop :=
  (embed_loop marshal new_request client_do read_all status_code unmarshal
              body_close).
Local Abbreviation EmbedBatch :=
  (EmbedBatch marshal new_request client_do read_all status_code unmarshal
              body_close).

(** X18: [Embed] never succeeds with an empty embedding: when it returns
    one, the server answered with status 200 and a body that parses to
    this embedding, which has at least one component. *)
Theorem Embed_ok e (text : string) (net net' : Net) (emb : list float) :
  Embed e text net = (net', inr emb) ->
  emb <> [] /\
  exists resp (body : string),
    status_code resp = StatusOK /\ unmarshal body = inr emb.
Proof.
  unfold Embed. intros H.
  destruct (marshal _ _) as [?|jsonBody]; [done|].
  destruct (new_request _ _) as [?|req]; [done|].
  destruct (client_do _ _) as [net1 [?|resp]]; [done|].
  destruct (read_all _ _) as [net2 [?|body]]; [done|].
  destruct (Z.eqb_spec (status_code resp) StatusOK) as [Hst|?]; [|done].
  simpl in H. destruct (unmarshal body) as [?|embedding] eqn:Hun; [done|].
  destruct embedding as [|x embedding]; [done|]. simpl in H.
  simplify_eq. split; [done|]. by exists resp, body.
Qed.

Lemma embed_loop_ok e (texts : list string) (i : nat)
    (results out : list (list float)) (net net' : Net) :
  embed_loop e texts i results net = (net', inr out) ->
  length out = length results /\
  (forall j : nat, (j < i)%nat \/ (i + length texts <= j)%nat ->
     out !! j = results !! j) /\
  (forall (j : nat) (text : string),
     texts !! j = Some text -> (i + j < length results)%nat ->
     exists emb (n1 n2 : Net),
       out !! (i + j)%nat = Some emb /\ emb <> [] /\
       Embed e text n1 = (n2, inr emb)).
Proof.
  revert i results net. induction texts as [|text texts IH];
    intros i results net; simpl.
  { intros [= <- <-]. repeat split; try done. }
  destruct (Embed e text net) as [net1 [err|emb]] eqn:HE; [done|].
  intros Hloop. apply IH in Hloop as (Hlen & Hout & Hin).
  rewrite length_insert in Hlen, Hin. split; [done|]. split.
  - intros j Hj. rewrite Hout by lia. apply list_lookup_insert_ne. lia.
  - intros [|j] text' Htext Hlt; simpl in Htext.
    + simplify_eq. exists emb, net, net1. rewrite Nat.add_0_r.
      rewrite Hout by lia. rewrite list_lookup_insert_eq by lia.
      split; [done|]. split; [|done].
      by apply Embed_ok in HE as [? _].
    + replace (i + S j)%nat with (S i + j)%nat by lia.
      apply (Hin j text' Htext). lia.
Qed.


(** X19: A successful [EmbedBatch] returns one embedding for each text, in
    the order of the texts, each the non-empty result of an [Embed] of
    that text. *)
Theorem EmbedBatch_ok e (texts : list string) (net net' : Net)
    (out : list (list float)) :
  EmbedBatch e texts net = (net', inr out) ->
  length out = length texts /\
  forall (j : nat) (text : string), texts !! j = Some text ->
    exists emb (n1 n2 : Net),
      out !! j = Some emb /\ emb <> [] /\ Embed e text n1 = (n2, inr emb).
Proof.
  unfold Ollama.EmbedBatch. intros H.
  apply embed_loop_ok in H as (Hlen & _ & Hin).
  rewrite length_replicate in Hlen, Hin. split; [done|].
  intros j text Hj. apply (Hin j text Hj). simpl.
  by eapply lookup_lt_Some.
Qed.


End EmbedderFacts.

(** ** The worked scenario, continued *)

Section MoreScenarioFacts.

Import Scenario.

Ltac wf_tac :=
  repeat (constructor; [by (eexists; vm_compute; reflexivity)|]); constructor.

Lemma wf_with_D : wf (with_D B_hit).
Proof. wf_tac. Defined.

Lemma D_self : near_duplicate (Embedding D) D = true.
Proof. vm_compute. reflexivity. Qed.

Lemma EuclideanDistance_self_witness :
  finite_vector [1; 2; 3] /\ EuclideanDistance [1; 2; 3] [1; 2; 3] = 0.
Proof.
  assert (H : finite_vector [1; 2; 3]) by (repeat constructor).
  split; [exact H|]. by rewrite (EuclideanDistance_self [1; 2; 3] H).
Defined.

Lemma Get_result_well_formed_witness :
  wf two_stored /\
  exists w' e,
    Get 3000 [0.99; 0.1; 0] 0.9 two_stored =
      Some (w', (Some pA, CosineSimilarity [0.99; 0.1; 0] [1; 0; 0], true)) /\
    heap two_stored !! pA = Some e /\ length (Embedding e) = 3%nat.
Proof.
  split; [exact wf_two_stored|].
  assert (HG : exists w',
             Get 3000 [0.99; 0.1; 0] 0.9 two_stored =
             Some (w', (Some pA, CosineSimilarity [0.99; 0.1; 0] [1; 0; 0], true)))
    by (eexists; vm_compute; reflexivity).
  destruct HG as [w' HGet].
  destruct (Get_result_well_formed two_stored 3000 _ 0.9 w' pA _
              wf_two_stored HGet)
    as (e & _ & He & _ & _ & _ & _ & Hlen & _).
  by exists w', e.
Defined.

Lemma zero_embedding_inert_witness :
  wf two_stored /\ zero_vector [0; -0; 0] /\
  Delete [0; -0; 0] two_stored = Some two_stored /\
  snd <$> Get 3000 [0; -0; 0] (-1) two_stored = Some (None, 0, false).
Proof.
  assert (Hz : zero_vector [0; -0; 0]) by (repeat constructor).
  split; [exact wf_two_stored|]. split; [exact Hz|].
  destruct (zero_embedding_inert two_stored [0; -0; 0] wf_two_stored Hz)
    as (HGet & HDel & _).
  split; [exact HDel | apply HGet].
Defined.

Lemma Delete_spec_witness :
  wf two_stored /\
  exists w', Delete [0; 1; 0] two_stored = Some w' /\ Size w' = 1%Z.
Proof.
  split; [exact wf_two_stored|].
  destruct (Delete_spec two_stored [0; 1; 0] wf_two_stored)
    as [(i & victim & _ & _ & _ & HDel & _ & Hlen) | [Hnone _]].
  - eexists. split; [exact HDel|].
    assert (H : Z.of_nat (length (remove_swap i (entries (mc two_stored))))
                = 1%Z) by (rewrite Hlen; reflexivity).
    exact H.
  - exfalso. assert (H : near_duplicate [0; 1; 0] B = false)
      by apply (Hnone 1%nat B eq_refl).
    vm_compute in H. discriminate.
Defined.

Lemma Set_then_Delete_witness :
  wf (with_D B_hit) /\ near_duplicate (Embedding D) D = true /\
  exists w1 w2,
    Set_ pD (with_D B_hit) = Some w1 /\
    Delete (Embedding D) w1 = Some w2 /\ Size w2 = (Size w1 - 1)%Z.
Proof.
  split; [exact wf_with_D|]. split; [exact D_self|].
  destruct (Set_then_Delete (with_D B_hit) pD D wf_with_D eq_refl D_self)
    as (w1 & w2 & i & HSet & _ & HDel & _ & _ & Hsize).
  by exists w1, w2.
Defined.

Lemma Set_idempotent_witness :
  wf (with_D B_hit) /\ near_duplicate (Embedding D) D = true /\
  exists w1, Set_ pD (with_D B_hit) = Some w1 /\ Set_ pD w1 = Some w1.
Proof.
  split; [exact wf_with_D|]. split; [exact D_self|].
  exact (Set_idempotent (with_D B_hit) pD D wf_with_D eq_refl D_self).
Defined.

Lemma Set_then_Get_witness :
  wf (with_D B_hit) /\ live 7000 D /\
  exists w1 w2 p (e : @CacheEntry string string),
    Set_ pD (with_D B_hit) = Some w1 /\
    Get 7000 (Embedding D) 0.95 w1 =
      Some (w2, (Some p, CosineSimilarity (Embedding D) (Embedding e), true)) /\
    near_duplicate (Embedding D) e = true.
Proof.
  assert (Hlive : live 7000 D) by (vm_compute; reflexivity).
  split; [exact wf_with_D|]. split; [exact Hlive|].
  destruct (Set_then_Get (with_D B_hit) pD D 7000 0.95 wf_with_D eq_refl
              D_self Hlive)
    as (w1 & w2 & p & e & HSet & HGet & _ & _ & _ & _ & Hdup).
  { vm_compute. reflexivity. }
  by exists w1, w2, p, e.
Defined.

Lemma Set_stores_witness :
  wf two_stored /\
  exists w', Set_ pC two_stored = Some w' /\ pC ∈ entries (mc w').
Proof.
  split; [exact wf_two_stored|].
  destruct (Set_stores two_stored pC wf_two_stored)
    as (w' & HSet & Hin & _).
  { by eexists. }
  by exists w'.
Defined.

Lemma Set_evicts_slot_0_witness :
  wf two_stored /\
  Set_ pC two_stored = Some (with_entries [pB; pC] two_stored).
Proof.
  split; [exact wf_two_stored|].
  apply (Set_evicts_slot_0 two_stored pC C pA pB [] A wf_two_stored).
  - reflexivity.
  - intros [|[|j]] e Hst; vm_compute in Hst; simplify_eq; vm_compute;
      reflexivity.
  - reflexivity.
  - vm_compute. discriminate.
  - reflexivity.
  - intros [|[|j]] e Hst; vm_compute in Hst; simplify_eq; vm_compute;
      discriminate.
Defined.


Lemma expiry_instant_witness :
  wf two_stored /\ ExpiresAt A = (1000 + hour)%Z /\
  live (1000 + hour) A /\
  exists w1 (removed : Z),
    Cleanup (1000 + hour) two_stored = Some (w1, removed) /\
    (pA ∉ entries (mc w1)) /\ (1 <= removed)%Z.
Proof.
  split; [exact wf_two_stored|]. split; [reflexivity|].
  apply (expiry_instant two_stored (1000 + hour)%Z pA A wf_two_stored).
  - apply list_elem_of_here.
  - reflexivity.
  - reflexivity.
Defined.

Lemma exec_safe_witness :
  safe two_stored /\
  exists w', exec (CallSet pC) two_stored = Some w' /\ safe w'.
Proof.
  assert (Hs : safe two_stored) by (split; [exact wf_two_stored|constructor]).
  split; [exact Hs|].
  destruct (exec_safe (CallSet pC) two_stored Hs) as (w' & Hex & Hs' & _).
  { by eexists. }
  by exists w'.
Defined.

Lemma run_capacity_witness :
  run hit_B start = Some B_hit /\ (Size B_hit <= 2)%Z.
Proof.
  split; [exact run_hit_B|].
  destruct (run_capacity hit_B start B_hit run_hit_B) as [_ H].
  - vm_compute. discriminate.
  - exact H.
Defined.

Lemma Stats_counts_lookups_witness :
  run hit_B start = Some B_hit /\
  (TotalHits (Stats B_hit) + TotalMisses (Stats B_hit) = 1)%Z.
Proof.
  split; [exact run_hit_B|].
  destruct (Stats_counts_lookups (Some capacity2) (heap start) hit_B B_hit
              run_hit_B) as (H & _).
  - repeat constructor.
  - vm_compute. reflexivity.
  - exact H.
Defined.

Lemma Embed_ok_witness :
  fake_Embed nomic "hello" [] = (["hello"], inr [1; 0]) /\
  [1; 0] <> @nil float.
Proof.
  assert (H : fake_Embed nomic "hello" [] = (["hello"], inr [1; 0]))
    by reflexivity.
  split; [exact H|].
  exact (proj1 (Embed_ok _ _ _ _ _ _ _ nomic "hello" [] ["hello"] [1; 0] H)).
Defined.

Lemma EmbedBatch_ok_witness :
  exists out,
    fake_EmbedBatch nomic ["a"; "b"] [] = (["a"; "b"], inr out) /\
    length out = 2%nat.
Proof.
  assert (H : fake_EmbedBatch nomic ["a"; "b"] [] =
              (["a"; "b"], inr [[1; 0]; [1; 0]])) by reflexivity.
  eexists. split; [exact H|].
  exact (proj1 (EmbedBatch_ok _ _ _ _ _ _ _ nomic ["a"; "b"] [] _ _ H)).
Defined.


End MoreScenarioFacts.
